(** * A shallow embedding of the streaming HTTP/1.1 request parser of
      [server.cpp] and of the connection handler's read loop.

    [std::string] is a byte sequence: [list ascii].  [size_t] positions are
    [nat], and [std::string::npos] is the [None] of [option nat].
    [StringMap] ([std::unordered_map<std::string, std::string>]) is a
    [gmap] keyed by byte sequences.  Every member function that can throw,
    run off its end, or loop is a computation in the [outcome] monad. *)

From stdpp Require Import gmap strings list fin_maps.
From Stdlib Require Import Ascii ZArith Lia.

Abbreviation bytes := (list ascii).

(** A C++ string literal without escapes. *)
Definition str (s : string) : bytes := String.list_ascii_of_string s.

Definition CR : ascii := ascii_of_nat 13.
Definition LF : ascii := ascii_of_nat 10.
Definition NUL : ascii := ascii_of_nat 0.
Definition SP : ascii := ascii_of_nat 32.

(** ["\r\n"] and ["\r\n\r\n"]. *)
Definition CRLF : bytes := [CR; LF].
Definition CRLFCRLF : bytes := [CR; LF; CR; LF].

(** ** Outcomes of C++ calls *)

(** The two standard exceptions [std::stoi] and [std::string::substr] throw. *)
Inductive exn : Type :=
| invalid_argument
| out_of_range.

(** What a call does: it returns a value; an exception leaves it; it calls
    [std::terminate] ([throw;] with no exception in flight, as [check_error]
    does); its behaviour is undefined (control reaches the closing brace of a
    value-returning function); or the step budget of a loop of the model is
    used up with the loop still running. *)
Inductive outcome (A : Type) : Type :=
| Returns (a : A)
| Throws (e : exn)
| Terminated
| Undefined
| OutOfFuel.

Arguments Returns {A} a.
Arguments Throws {A} e.
Arguments Terminated {A}.
Arguments Undefined {A}.
Arguments OutOfFuel {A}.

Definition obind {A B : Type} (m : outcome A) (k : A → outcome B) : outcome B :=
  match m with
  | Returns a => k a
  | Throws e => Throws e
  | Terminated => Terminated
  | Undefined => Undefined
  | OutOfFuel => OutOfFuel
  end.

Notation "x ←! m ; k" := (obind m (λ x, k))
  (at level 20, m at level 100, k at level 200, right associativity,
   format "'[v' x  ←!  m ; '/' k ']'").

(** ** [std::string] operations *)

Module Str.

(** [s.compare(0, n.size(), n) == 0]: [n] is a prefix of [s]. *)
Fixpoint starts_with (n s : bytes) : bool :=
  match n, s with
  | [], _ => true
  | _ :: _, [] => false
  | a :: n', b :: s' => Ascii.eqb a b && starts_with n' s'
  end.

(** Offset of the first occurrence of [n] in [s], scanning from offset 0. *)
Fixpoint find0 (n s : bytes) : option nat :=
  if starts_with n s then Some 0
  else match s with
       | [] => None
       | _ :: s' => S <$> find0 n s'
       end.

(** [s.find(n, pos)]: the first offset [>= pos] at which [n] occurs, or
    [npos]; a start beyond the end finds nothing. *)
Definition find (n s : bytes) (pos : nat) : option nat :=
  if decide (pos ≤ length s) then (λ i, pos + i) <$> find0 n (drop pos s)
  else None.

(** [s.find(c, pos)] for one character. *)
Definition find_char (c : ascii) (s : bytes) (pos : nat) : option nat :=
  find [c] s pos.

(** [s.substr(pos, len)]: throws [std::out_of_range] when [pos > size()];
    [len = None] is the default [npos]; the count is clipped to the end. *)
Definition substr (s : bytes) (pos : nat) (len : option nat) : outcome bytes :=
  if decide (pos ≤ length s) then
    Returns (match len with
             | Some l => take l (drop pos s)
             | None => drop pos s
             end)
  else Throws out_of_range.

(** [s.resize(n)]: cut to [n] bytes, or pad with ['\0'] up to [n]. *)
Definition resize (s : bytes) (n : nat) : bytes :=
  take n s ++ replicate (n - length s) NUL.

End Str.

(** ** [std::stoi] *)

Module Stoi.

(** [int] is 32 bits wide on the platform the server is built for. *)
Definition INT_MAX : Z := 2147483647.
Definition INT_MIN : Z := -2147483648.

(** [isspace] on a byte: space and ['\t' .. '\r']. *)
Definition isspace (c : ascii) : bool :=
  let n := nat_of_ascii c in
  (n =? 32) || ((9 <=? n) && (n <=? 13)).

Definition isdigit (c : ascii) : bool :=
  let n := nat_of_ascii c in
  (48 <=? n) && (n <=? 57).

Fixpoint skip_spaces (s : bytes) : bytes :=
  match s with
  | c :: s' => if isspace c then skip_spaces s' else s
  | [] => []
  end.

(** An optional sign: [true] for ['-']. *)
Definition strip_sign (s : bytes) : bool * bytes :=
  match s with
  | c :: s' =>
      if nat_of_ascii c =? 45 then (true, s')
      else if nat_of_ascii c =? 43 then (false, s')
      else (false, s)
  | [] => (false, [])
  end.

(** Value of the longest run of decimal digits at the head of [s]. *)
Fixpoint digits_value (acc : Z) (s : bytes) : Z :=
  match s with
  | c :: s' =>
      if isdigit c
      then digits_value (10 * acc + (Z.of_nat (nat_of_ascii c) - 48)) s'
      else acc
  | [] => acc
  end.

(** [std::stoi(s)] in base 10: leading white space, an optional sign, then
    digits; [std::invalid_argument] when there is no digit to convert,
    [std::out_of_range] when the value does not fit an [int]. *)
Definition stoi (s : bytes) : outcome Z :=
  let '(neg, s2) := strip_sign (skip_spaces s) in
  match s2 with
  | c :: _ =>
      if isdigit c then
        let v := digits_value 0 s2 in
        let v := if neg then (- v)%Z else v in
        if ((INT_MIN <=? v)%Z && (v <=? INT_MAX)%Z) then Returns v
        else Throws out_of_range
      else Throws invalid_argument
  | [] => Throws invalid_argument
  end.

End Stoi.

(** ** [struct http11_header_parser] *)

Module http11_header_parser.

Record t : Type := mk {
  m_header : bytes;
  m_header_line : bytes;
  m_header_keys : gmap bytes bytes;
  m_body : bytes;
  m_header_finished : bool
}.

(** A default-constructed parser. *)
Definition init : t := mk [] [] ∅ [] false.

Definition set_header (h : bytes) (s : t) : t :=
  mk h (m_header_line s) (m_header_keys s) (m_body s) (m_header_finished s).
Definition set_header_keys (k : gmap bytes bytes) (s : t) : t :=
  mk (m_header s) (m_header_line s) k (m_body s) (m_header_finished s).
Definition set_body (b : bytes) (s : t) : t :=
  mk (m_header s) (m_header_line s) (m_header_keys s) b (m_header_finished s).
Definition set_header_finished (f : bool) (s : t) : t :=
  mk (m_header s) (m_header_line s) (m_header_keys s) (m_body s) f.

Definition header_finished (s : t) : bool := m_header_finished s.
Definition headline (s : t) : bytes := m_header_line s.
Definition headers_raw (s : t) : bytes := m_header s.
Definition headers (s : t) : gmap bytes bytes := m_header_keys s.
Definition extra_body (s : t) : bytes := m_body s.

(** The lambda given to [std::transform]: ['A' .. 'Z'] move up by
    ['a' - 'A'], every other byte is returned as it is. *)
Definition to_lower (c : ascii) : ascii :=
  let n := nat_of_ascii c in
  if (65 <=? n) && (n <=? 90) then ascii_of_nat (n + 32) else c.

(** The body of the [while] loop of [_extract_headers], [pos] being the
    loop variable ([None] is [npos]).  Each turn consumes one unit of
    [fuel]. *)
Fixpoint _extract_headers_loop (fuel : nat) (hdr : bytes) (pos : option nat)
    (keys : gmap bytes bytes) : outcome (gmap bytes bytes) :=
  match pos with
  | None => Returns keys
  | Some p =>
      match fuel with
      | 0 => OutOfFuel
      | S fuel' =>
          let p := p + 2 in
          let next_pos := Str.find CRLF hdr p in
          let line_len := (λ n, n - p) <$> next_pos in
          line ←! Str.substr hdr p line_len;
          keys' ←! match Str.find (str ": ") line 0 with
                   | Some colon =>
                       key ←! Str.substr line 0 (Some colon);
                       value ←! Str.substr line (colon + 2) None;
                       Returns (<[to_lower <$> key := value]> keys)
                   | None => Returns keys
                   end;
          _extract_headers_loop fuel' hdr next_pos keys'
      end
  end.

(** [_extract_headers()]: the loop started at the first ["\r\n"].  The
    budget is one more than the header's length; the loop never needs
    more (see [extract_headers_loop_spec]). *)
Definition _extract_headers (s : t) : outcome t :=
  keys ←! _extract_headers_loop (S (length (m_header s))) (m_header s)
            (Str.find CRLF (m_header s) 0) (m_header_keys s);
  Returns (set_header_keys keys s).

Definition push_chunk (chunk : bytes) (s : t) : outcome t :=
  if m_header_finished s then Returns s
  else
    let s := set_header (m_header s ++ chunk) s in
    match Str.find CRLFCRLF (m_header s) 0 with
    | Some header_len =>
        let s := set_header_finished true s in
        body ←! Str.substr (m_header s) (header_len + 4) None;
        let s := set_body body s in
        let s := set_header (Str.resize (m_header s) header_len) s in
        _extract_headers s
    | None => Returns s
    end.

End http11_header_parser.

(** ** [struct http_request_parser<http11_header_parser>] *)

Module http_request_parser.

Module HP := http11_header_parser.

Record t : Type := mk {
  m_header_parser : HP.t;
  m_content_length : nat;
  m_body_finished : bool
}.

Definition init : t := mk HP.init 0 false.

Definition set_header_parser (h : HP.t) (p : t) : t :=
  mk h (m_content_length p) (m_body_finished p).
Definition set_content_length (n : nat) (p : t) : t :=
  mk (m_header_parser p) n (m_body_finished p).
Definition set_body_finished (f : bool) (p : t) : t :=
  mk (m_header_parser p) (m_content_length p) f.

Definition request_finished (p : t) : bool := m_body_finished p.
Definition body (p : t) : bytes := HP.extra_body (m_header_parser p).
Definition headers_raw (p : t) : bytes := HP.headers_raw (m_header_parser p).
Definition headers (p : t) : gmap bytes bytes := HP.headers (m_header_parser p).

(** [body().resize(n)] writes through the reference into the header
    parser's [m_body]. *)
Definition resize_body (n : nat) (p : t) : t :=
  set_header_parser (HP.set_body (Str.resize (body p) n) (m_header_parser p)) p.

Definition method (p : t) : outcome bytes :=
  let headline := HP.headline (m_header_parser p) in
  match Str.find_char SP headline 0 with
  | Some space => Str.substr headline 0 (Some space)
  | None => Returns (str "GET")
  end.

Definition url (p : t) : outcome bytes :=
  let headline := HP.headline (m_header_parser p) in
  match Str.find_char SP headline 0 with
  | None => Returns (str "GET")
  | Some space1 =>
      match Str.find_char SP headline space1 with
      | None => Returns (str "GET")
      | Some space2 => Str.substr headline space1 (Some space2)
      end
  end.

(** [_extract_content_length()].  The header's absence returns 0.  With
    the header present [std::stoi] is called and its value dropped: the
    handler of [std::invalid_argument] returns 0, [std::out_of_range] is
    not caught, and after a conversion that succeeds control reaches the
    end of the function, which has no [return] there. *)
Definition _extract_content_length (p : t) : outcome nat :=
  match headers p !! str "content-length" with
  | None => Returns 0
  | Some v =>
      match Stoi.stoi v with
      | Returns _ => Undefined
      | Throws invalid_argument => Returns 0
      | Throws e => Throws e
      | Terminated => Terminated
      | Undefined => Undefined
      | OutOfFuel => OutOfFuel
      end
  end.

Definition push_chunk (chunk : bytes) (p : t) : outcome t :=
  if HP.header_finished (m_header_parser p) then Returns p
  else
    hp ←! HP.push_chunk chunk (m_header_parser p);
    let p := set_header_parser hp p in
    if HP.header_finished (m_header_parser p) then
      n ←! _extract_content_length p;
      let p := set_content_length n p in
      if decide (m_content_length p ≤ length (body p)) then
        Returns (resize_body (m_content_length p) (set_body_finished true p))
      else Returns p
    else Returns p.

End http_request_parser.

(** ** The connection handler's read loop (the lambda in [main]) *)

Module connection.

Module RP := http_request_parser.

(** What the peer does next: it delivers a segment of bytes, or the
    connection fails.  When the script is used up the peer has closed
    the connection. *)
Inductive event : Type :=
| Segment (data : bytes)
| Failure.

Definition conn : Type := list event.

(** [read(connid, buf, count)]: the result and the bytes put in [buf].
    At most [count] bytes of the segment at the head are taken; on a
    closed connection the call returns 0; a failure returns -1. *)
Definition read (c : conn) (count : nat) : Z * bytes * conn :=
  match c with
  | [] => (0%Z, [], [])
  | Failure :: c' => ((-1)%Z, [], c')
  | Segment d :: c' =>
      let got := take count d in
      let rest := drop count d in
      (Z.of_nat (length got), got,
       match rest with [] => c' | _ :: _ => Segment rest :: c' end)
  end.

(** [check_error(const char*, ssize_t)]: only -1 is an error, and the
    [throw;] there has no exception to rethrow. *)
Definition check_error (res : Z) : outcome nat :=
  if decide (res = (-1)%Z) then Terminated else Returns (Z.to_nat res).

Definition BUF_SIZE : nat := 1024.

(** The [do ... while (!req_parse.request_finished())] loop; it returns
    the parser the response is then built from. *)
Fixpoint read_loop (fuel : nat) (c : conn) (req_parse : RP.t) : outcome RP.t :=
  match fuel with
  | 0 => OutOfFuel
  | S fuel' =>
      let '(res, buf, c') := read c BUF_SIZE in
      n ←! check_error res;
      req_parse ←! RP.push_chunk (take n buf) req_parse;
      if RP.request_finished req_parse then Returns req_parse
      else read_loop fuel' c' req_parse
  end.

End connection.

(** ** Feeding a sequence of chunks *)

Module HP := http11_header_parser.
Module RP := http_request_parser.

(** [push_chunk] called once per chunk, in order. *)
Fixpoint hp_push_chunks (chunks : list bytes) (s : HP.t) : outcome HP.t :=
  match chunks with
  | [] => Returns s
  | c :: cs => s' ←! HP.push_chunk c s; hp_push_chunks cs s'
  end.

Fixpoint rp_push_chunks (chunks : list bytes) (p : RP.t) : outcome RP.t :=
  match chunks with
  | [] => Returns p
  | c :: cs => p' ←! RP.push_chunk c p; rp_push_chunks cs p'
  end.

(** ** The header block as the specification describes it *)

Module HeaderBlock.

Definition cons_head (c : ascii) (ls : list bytes) : list bytes :=
  match ls with
  | l :: ls' => (c :: l) :: ls'
  | [] => [[c]]
  end.

(** The lines of a header block: the pieces between line terminators,
    taken from left to right. *)
Fixpoint lines (s : bytes) : list bytes :=
  match s with
  | [] => [[]]
  | c :: s' =>
      match s' with
      | d :: s'' =>
          if Ascii.eqb CR c && Ascii.eqb LF d then [] :: lines s''
          else cons_head c (lines s')
      | [] => [[c]]
      end
  end.

(** The inverse of [lines]: the pieces with ["\r\n"] between them. *)
Fixpoint join (ls : list bytes) : bytes :=
  match ls with
  | [] => []
  | l :: ls' =>
      match ls' with
      | [] => l
      | _ :: _ => l ++ CRLF ++ join ls'
      end
  end.

(** The lines after the request line. *)
Definition header_lines (s : bytes) : list bytes := tail (lines s).

(** A line split at its first [": "]: the key as written and the value. *)
Definition split_line (line : bytes) : option (bytes * bytes) :=
  (λ colon, (take colon line, drop (colon + 2) line))
    <$> Str.find0 (str ": ") line.

(** The folded key of a line that has the delimiter. *)
Definition line_key (line : bytes) : option bytes :=
  (λ kv : bytes * bytes, HP.to_lower <$> kv.1) <$> split_line line.

(** One line's effect on the map: a line with the delimiter assigns its
    value to its folded key, any other line is skipped. *)
Definition add_line (keys : gmap bytes bytes) (line : bytes) : gmap bytes bytes :=
  match split_line line with
  | Some (k, v) => <[HP.to_lower <$> k := v]> keys
  | None => keys
  end.

Definition header_map (keys : gmap bytes bytes) (ls : list bytes) : gmap bytes bytes :=
  foldl add_line keys ls.

End HeaderBlock.

(** ** [std::to_string] *)

Module ToString.

(** The character of a decimal digit. *)
Definition digit (d : nat) : ascii := ascii_of_nat (48 + d).

(** The decimal digits of [n], most significant first, put in front of
    [acc]; one digit per unit of [fuel]. *)
Fixpoint digits (fuel n : nat) (acc : bytes) : bytes :=
  match fuel with
  | 0 => acc
  | S fuel' =>
      let acc' := digit (n mod 10) :: acc in
      if n <? 10 then acc' else digits fuel' (n / 10) acc'
  end.

(** [std::to_string(n)] for an unsigned [n]: its decimal digits, ["0"]
    for 0.  A number has fewer digits than [S n]. *)
Definition to_string (n : nat) : bytes := digits (S n) n [].

End ToString.

(** ** The rest of the connection handler: response, [write], [close] *)

Module server.

(** The string [res] built from the parsed body. *)
Definition response (body : bytes) : bytes :=
  str "HTTP/1.1 200 OK" ++ CRLF ++ str "Server: my_server" ++ CRLF
  ++ str "Connection: close" ++ CRLF ++ str "Content-length: "
  ++ ToString.to_string (length body) ++ CRLFCRLF ++ body.

(** The lambda run for one connection: the read loop on a fresh parser,
    then one [write] of the response, checked by [check_error], then
    [close].  [written] is what that [write] call returns (-1, or the
    number of bytes it took).  The result is the buffer handed to [write]
    and the checked count. *)
Definition handle_connection (fuel : nat) (c : connection.conn) (written : Z)
    : outcome (bytes * nat) :=
  req_parse ←! connection.read_loop fuel c RP.init;
  let body := RP.body req_parse in
  let res := response body in
  n ←! connection.check_error written;
  Returns (res, n).

End server.

(** ** The invariant of a header parser

    What holds of every parser that started from [init]: the request line
    is never assigned; the accumulator holds no terminator; until the
    terminator arrives the map and the body are empty. *)

Definition hp_inv (s : HP.t) : Prop :=
  HP.m_header_line s = [] ∧
  Str.find0 CRLFCRLF (HP.m_header s) = None ∧
  (HP.m_header_finished s = false →
   HP.m_header_keys s = ∅ ∧ HP.m_body s = []).

(** A byte outside ['A' .. 'Z'] and ['a' .. 'z']. *)
Definition no_letter (x : ascii) : Prop :=
  ¬ (65 ≤ nat_of_ascii x ≤ 90) ∧ ¬ (97 ≤ nat_of_ascii x ≤ 122).

(** ** Lemmas on [std::string::find] *)

Section find_lemmas.

Implicit Types n s a b : bytes.

Lemma starts_with_spec n s :
  Str.starts_with n s = true ↔ ∃ t, s = n ++ t.
Proof.
  revert s. induction n as [|x n IH]; intros s; simpl.
  - split; [intros _; by exists s | done].
  - destruct s as [|y s].
    + split; [done | intros [t Ht]; discriminate].
    + rewrite andb_true_iff, Ascii.eqb_eq, IH. split.
      * intros [-> [t ->]]. by exists t.
      * intros [t Ht]. injection Ht as -> ->. eauto.
Qed.

Lemma starts_with_app n a b :
  Str.starts_with n a = true → Str.starts_with n (a ++ b) = true.
Proof.
  rewrite !starts_with_spec. intros [t ->]. exists (t ++ b).
  by rewrite app_assoc.
Qed.

Lemma starts_with_length n s :
  Str.starts_with n s = true → length n ≤ length s.
Proof.
  rewrite starts_with_spec. intros [t ->]. rewrite length_app. lia.
Qed.

Lemma find0_unfold n s :
  Str.find0 n s =
    if Str.starts_with n s then Some 0
    else match s with [] => None | _ :: s' => S <$> Str.find0 n s' end.
Proof. by destruct s. Qed.

(** An offset that [find0] returns is an occurrence, it fits in the
    string, and no smaller offset is an occurrence. *)
Lemma find0_Some n s i :
  Str.find0 n s = Some i →
  Str.starts_with n (drop i s) = true ∧ i + length n ≤ length s ∧
  ∀ j, j < i → Str.starts_with n (drop j s) = false.
Proof.
  revert i. induction s as [|c s IH]; intros i; rewrite find0_unfold.
  - destruct (Str.starts_with n []) eqn:E; [|done].
    intros [= <-]. apply starts_with_length in E as E'. simpl in *.
    split_and!; [done | lia | lia].
  - destruct (Str.starts_with n (c :: s)) eqn:E.
    + intros [= <-]. apply starts_with_length in E as E'. simpl in *.
      split_and!; [done | lia | lia].
    + destruct (Str.find0 n s) as [i'|] eqn:F; [|done].
      intros [= <-]. destruct (IH i' eq_refl) as (H1 & H2 & H3).
      simpl. split_and!; [done | lia |].
      intros [|j] Hj; [done|]. simpl. apply H3. lia.
Qed.

Lemma find0_None n s j :
  Str.find0 n s = None → Str.starts_with n (drop j s) = false.
Proof.
  revert j. induction s as [|c s IH]; intros j; rewrite find0_unfold.
  - destruct (Str.starts_with n []) eqn:E; [done|]. by destruct j.
  - destruct (Str.starts_with n (c :: s)) eqn:E; [done|].
    destruct (Str.find0 n s) eqn:F; [done|]. intros _.
    destruct j as [|j]; [done|]. simpl. by apply IH.
Qed.

(** Conversely, the least occurrence is what [find0] returns. *)
Lemma find0_first n s i :
  Str.starts_with n (drop i s) = true → i ≤ length s →
  (∀ j, j < i → Str.starts_with n (drop j s) = false) →
  Str.find0 n s = Some i.
Proof.
  intros Hocc Hlen Hmin.
  destruct (Str.find0 n s) as [i'|] eqn:F.
  - destruct (find0_Some _ _ _ F) as (H1 & H2 & H3).
    destruct (lt_eq_lt_dec i i') as [[Hlt| ->]|Hlt]; [|done|].
    + rewrite (H3 i Hlt) in Hocc. done.
    + rewrite (Hmin i' Hlt) in H1. done.
  - by rewrite (find0_None n s i F) in Hocc.
Qed.

Lemma find0_app_None n a b :
  Str.find0 n (a ++ b) = None → Str.find0 n a = None.
Proof.
  intros HN. destruct (Str.find0 n a) as [i|] eqn:F; [|done].
  destruct (find0_Some _ _ _ F) as (H1 & H2 & _).
  pose proof (find0_None n (a ++ b) i HN) as H.
  rewrite drop_app_le in H by lia.
  by rewrite (starts_with_app _ _ _ H1) in H.
Qed.

(** An occurrence wholly inside [a] is found at the same offset in
    [a ++ b]. *)
Lemma find0_app_Some n a b i :
  Str.find0 n a = Some i → Str.find0 n (a ++ b) = Some i.
Proof.
  intros F. destruct (find0_Some _ _ _ F) as (H1 & H2 & H3).
  apply find0_first.
  - rewrite drop_app_le by lia. by apply starts_with_app.
  - rewrite length_app. lia.
  - intros j Hj. specialize (H3 j Hj).
    destruct (Str.starts_with n (drop j (a ++ b))) eqn:E; [|done].
    rewrite <- H3. symmetry.
    apply starts_with_spec in E as [t Ht].
    apply starts_with_spec.
    rewrite drop_app_le in Ht by lia.
    assert (HL : length n ≤ length (drop j a)) by (rewrite length_drop; lia).
    exists (take (length (drop j a) - length n) t).
    rewrite <- (take_app_length (drop j a) b) at 1.
    rewrite Ht. by apply take_app_ge.
Qed.

(** The bytes before the first occurrence contain no occurrence. *)
Lemma find0_take n s i :
  n ≠ [] → Str.find0 n s = Some i → Str.find0 n (take i s) = None.
Proof.
  intros Hn F. destruct (find0_Some _ _ _ F) as (H1 & H2 & H3).
  destruct (Str.find0 n (take i s)) as [j|] eqn:G; [|done].
  destruct (find0_Some _ _ _ G) as (G1 & G2 & _).
  rewrite length_take in G2.
  assert (length n ≠ 0) by (by destruct n).
  assert (Hj : j < i) by lia.
  pose proof (find0_app_Some n (take i s) (drop i s) j G) as HH.
  rewrite take_drop in HH. rewrite F in HH. injection HH as ->. lia.
Qed.

Lemma find_0 n s : Str.find n s 0 = Str.find0 n s.
Proof.
  unfold Str.find. rewrite decide_True by lia. rewrite drop_0.
  by destruct (Str.find0 n s).
Qed.

Lemma find_le n s pos :
  pos ≤ length s →
  Str.find n s pos = (λ i, pos + i) <$> Str.find0 n (drop pos s).
Proof. intros H. unfold Str.find. by rewrite decide_True. Qed.

Lemma substr_le s pos len :
  pos ≤ length s →
  Str.substr s pos len =
    Returns (match len with Some l => take l (drop pos s) | None => drop pos s end).
Proof. intros H. unfold Str.substr. by rewrite decide_True. Qed.

Lemma resize_le s k : k ≤ length s → Str.resize s k = take k s.
Proof.
  intros H. unfold Str.resize.
  replace (k - length s) with 0 by lia. simpl. by rewrite app_nil_r.
Qed.

End find_lemmas.

(** ** The loop of [_extract_headers] computes the header map *)

Section extract_headers.

Import HeaderBlock.

Lemma starts_with_CRLF c d s :
  Str.starts_with CRLF (c :: d :: s) = Ascii.eqb CR c && Ascii.eqb LF d.
Proof. simpl. by rewrite andb_true_r. Qed.

Lemma starts_with_CRLF_1 c : Str.starts_with CRLF [c] = false.
Proof. unfold CRLF. cbn [Str.starts_with]. apply andb_false_r. Qed.

Lemma lines_cons c d s :
  lines (c :: d :: s) =
    if Ascii.eqb CR c && Ascii.eqb LF d then [] :: lines s
    else cons_head c (lines (d :: s)).
Proof. done. Qed.

(** [lines] cuts at the first ["\r\n"] that [find] reports. *)
Lemma lines_find0 s :
  lines s =
    match Str.find0 CRLF s with
    | Some i => take i s :: lines (drop (i + 2) s)
    | None => [s]
    end.
Proof.
  induction s as [|c s IH]; [done|].
  rewrite find0_unfold. destruct s as [|d s''].
  - by rewrite starts_with_CRLF_1.
  - rewrite starts_with_CRLF.
    rewrite lines_cons.
    destruct (Ascii.eqb CR c && Ascii.eqb LF d); [done|].
    rewrite IH. by destruct (Str.find0 CRLF (d :: s'')).
Qed.

Lemma lines_nonempty s : lines s ≠ [].
Proof. rewrite lines_find0. by destruct (Str.find0 CRLF s). Qed.

(** [lines] is a splitting at the line terminators: no piece holds one,
    and the pieces joined by terminators give the block back. *)
Lemma lines_no_CRLF s : Forall (λ l, Str.find0 CRLF l = None) (lines s).
Proof.
  remember (length s) as n eqn:Hn. revert s Hn.
  induction (lt_wf n) as [n _ IH]. intros s ->.
  rewrite lines_find0. destruct (Str.find0 CRLF s) as [i|] eqn:F.
  - destruct (find0_Some _ _ _ F) as (_ & Hlen & _). cbn [length CRLF] in Hlen.
    constructor; [by apply find0_take|].
    apply (IH (length (drop (i + 2) s))); [|done].
    rewrite length_drop. lia.
  - by constructor.
Qed.

Lemma lines_join s : join (lines s) = s.
Proof.
  remember (length s) as n eqn:Hn. revert s Hn.
  induction (lt_wf n) as [n _ IH]. intros s ->.
  rewrite lines_find0. destruct (Str.find0 CRLF s) as [i|] eqn:F; [|done].
  destruct (find0_Some _ _ _ F) as (Hocc & Hlen & _). cbn [length CRLF] in Hlen.
  cbn [join]. pose proof (lines_nonempty (drop (i + 2) s)) as Hne.
  assert (IH' : join (lines (drop (i + 2) s)) = drop (i + 2) s).
  { apply (IH (length (drop (i + 2) s))); [rewrite length_drop; lia | done]. }
  destruct (lines (drop (i + 2) s)) as [|l ls] eqn:El; [done|].
  rewrite IH'.
  apply starts_with_spec in Hocc as [t Ht].
  rewrite <- (take_drop i s) at 3. rewrite Ht. do 2 f_equal.
  by rewrite <- drop_drop, Ht.
Qed.

(** What one turn of the loop does with its line. *)
Lemma line_step keys line :
  match Str.find (str ": ") line 0 with
  | Some colon =>
      key ←! Str.substr line 0 (Some colon);
      value ←! Str.substr line (colon + 2) None;
      Returns (<[HP.to_lower <$> key := value]> keys)
  | None => Returns keys
  end = Returns (add_line keys line).
Proof.
  rewrite find_0. unfold add_line, split_line.
  destruct (Str.find0 (str ": ") line) as [colon|] eqn:F; [|done].
  destruct (find0_Some _ _ _ F) as (_ & Hlen & _). simpl in Hlen.
  rewrite substr_le by lia. simpl.
  rewrite substr_le by lia. done.
Qed.

(** Entered at a ["\r\n"] found at offset [p], with a budget of at least
    the bytes that remain, the loop returns, and returns the map of the
    lines after that terminator. *)
Lemma extract_headers_loop_spec fuel hdr p keys :
  p + 2 ≤ length hdr → length hdr - p ≤ fuel →
  HP._extract_headers_loop fuel hdr (Some p) keys =
    Returns (header_map keys (lines (drop (p + 2) hdr))).
Proof.
  revert p keys. induction fuel as [|fuel IH]; intros p keys Hp Hfuel; [lia|].
  cbn [HP._extract_headers_loop].
  rewrite find_le by done. rewrite (lines_find0 (drop (p + 2) hdr)).
  destruct (Str.find0 CRLF (drop (p + 2) hdr)) as [i|] eqn:F;
    cbn [fmap option_fmap option_map].
  - destruct (find0_Some _ _ _ F) as (_ & Hlen & _).
    rewrite length_drop in Hlen. cbn [length CRLF] in Hlen.
    rewrite substr_le by done. cbn [obind].
    replace (p + 2 + i - (p + 2)) with i by lia.
    rewrite line_step. cbn [obind].
    rewrite IH by lia. rewrite drop_drop.
    by replace (p + 2 + i + 2) with (p + 2 + (i + 2)) by lia.
  - rewrite substr_le by done. cbn [obind]. rewrite line_step.
    cbn [obind]. by destruct fuel.
Qed.

(** [_extract_headers] returns, changes the map only, and the map is that
    of the header lines. *)
Lemma extract_headers_spec s :
  HP._extract_headers s =
    Returns (HP.set_header_keys
               (header_map (HP.m_header_keys s) (header_lines (HP.m_header s))) s).
Proof.
  unfold HP._extract_headers, header_lines. rewrite find_0.
  rewrite (lines_find0 (HP.m_header s)).
  destruct (Str.find0 CRLF (HP.m_header s)) as [i|] eqn:F; [|done].
  destruct (find0_Some _ _ _ F) as (_ & Hlen & _). simpl in Hlen.
  rewrite extract_headers_loop_spec by lia. done.
Qed.

End extract_headers.

(** Field reads of an updated record. *)
Ltac hp_fields :=
  unfold HP.header_finished, HP.headline, HP.headers_raw, HP.headers,
    HP.extra_body in *;
  cbn [HP.set_header HP.set_body HP.set_header_keys HP.set_header_finished
       HP.m_header HP.m_header_line HP.m_header_keys HP.m_body
       HP.m_header_finished] in *.

Ltac rp_fields :=
  unfold RP.request_finished, RP.body, RP.headers_raw, RP.headers,
    RP.resize_body in *;
  hp_fields;
  cbn [RP.set_header_parser RP.set_content_length RP.set_body_finished
       RP.m_header_parser RP.m_content_length RP.m_body_finished] in *;
  hp_fields.

(** ** [http11_header_parser::push_chunk], case by case *)

Section header_push_chunk.

Import HeaderBlock.

Lemma hp_push_chunk_finished chunk s :
  HP.m_header_finished s = true → HP.push_chunk chunk s = Returns s.
Proof. intros H. unfold HP.push_chunk. by rewrite H. Qed.

(** No terminator yet: the chunk is appended and nothing else changes. *)
Lemma hp_push_chunk_waiting chunk s :
  HP.m_header_finished s = false →
  Str.find0 CRLFCRLF (HP.m_header s ++ chunk) = None →
  HP.push_chunk chunk s = Returns (HP.set_header (HP.m_header s ++ chunk) s).
Proof.
  intros Hf HN. unfold HP.push_chunk. rewrite Hf.
  hp_fields. by rewrite find_0, HN.
Qed.

(** The terminator is at [h]: the state after the call, field by field. *)
Lemma hp_push_chunk_completes chunk s h :
  HP.m_header_finished s = false →
  Str.find0 CRLFCRLF (HP.m_header s ++ chunk) = Some h →
  HP.push_chunk chunk s =
    Returns
      (HP.mk (take h (HP.m_header s ++ chunk))
         (HP.m_header_line s)
         (header_map (HP.m_header_keys s)
            (header_lines (take h (HP.m_header s ++ chunk))))
         (drop (h + 4) (HP.m_header s ++ chunk))
         true).
Proof.
  intros Hf HS. unfold HP.push_chunk. rewrite Hf.
  hp_fields. rewrite find_0, HS.
  destruct (find0_Some _ _ _ HS) as (_ & Hlen & _). cbn [length CRLFCRLF] in Hlen.
  rewrite substr_le by lia. cbn [obind].
  rewrite extract_headers_spec. hp_fields.
  by rewrite resize_le by lia.
Qed.

(** [push_chunk] always returns: its [substr] calls are in range and
    the loop of [_extract_headers] ends within its budget. *)
Lemma hp_push_chunk_returns chunk s :
  ∃ s', HP.push_chunk chunk s = Returns s'.
Proof.
  destruct (HP.m_header_finished s) eqn:Hf.
  - eexists. by apply hp_push_chunk_finished.
  - destruct (Str.find0 CRLFCRLF (HP.m_header s ++ chunk)) as [h|] eqn:F.
    + eexists. by apply hp_push_chunk_completes.
    + eexists. by apply hp_push_chunk_waiting.
Qed.

(** The flag never goes back. *)
Lemma hp_push_chunk_monotone chunk s s' :
  HP.push_chunk chunk s = Returns s' →
  HP.m_header_finished s = true → HP.m_header_finished s' = true.
Proof.
  intros H Hf. rewrite hp_push_chunk_finished in H by done.
  by injection H as <-.
Qed.

Lemma hp_inv_init : hp_inv HP.init.
Proof. by split_and!. Qed.

Lemma CRLFCRLF_nonempty : CRLFCRLF ≠ [].
Proof. done. Qed.

Lemma hp_inv_push_chunk chunk s s' :
  hp_inv s → HP.push_chunk chunk s = Returns s' → hp_inv s'.
Proof.
  intros (Hl & Ht & He) H.
  destruct (HP.m_header_finished s) eqn:Hf.
  - rewrite hp_push_chunk_finished in H by done. injection H as <-.
    split_and!; [done | done | congruence].
  - destruct (Str.find0 CRLFCRLF (HP.m_header s ++ chunk)) as [h|] eqn:F.
    + rewrite (hp_push_chunk_completes _ _ h) in H by done.
      injection H as <-. split_and!; cbn; [done | | done].
      by apply find0_take; [apply CRLFCRLF_nonempty|].
    + rewrite hp_push_chunk_waiting in H by done. injection H as <-.
      split_and!; cbn; [done | done | by intros _; apply He].
Qed.

Lemma hp_push_chunks_returns chunks s :
  ∃ s', hp_push_chunks chunks s = Returns s'.
Proof.
  revert s. induction chunks as [|c cs IH]; intros s; cbn [hp_push_chunks].
  - by eexists.
  - destruct (hp_push_chunk_returns c s) as [s1 ->]. cbn [obind]. apply IH.
Qed.

Lemma hp_inv_push_chunks chunks s s' :
  hp_inv s → hp_push_chunks chunks s = Returns s' → hp_inv s'.
Proof.
  revert s. induction chunks as [|c cs IH]; intros s Hi; cbn [hp_push_chunks].
  - by intros [= <-].
  - destruct (hp_push_chunk_returns c s) as [s1 E]. rewrite E. cbn [obind].
    apply IH. by eapply hp_inv_push_chunk.
Qed.

Lemma hp_push_chunks_finished chunks s :
  HP.m_header_finished s = true → hp_push_chunks chunks s = Returns s.
Proof.
  induction chunks as [|c cs IH]; intros Hf; cbn [hp_push_chunks]; [done|].
  rewrite hp_push_chunk_finished by done. cbn [obind]. by apply IH.
Qed.

(** Chunks that together bring no terminator only grow the accumulator. *)
Lemma hp_push_chunks_waiting chunks s :
  HP.m_header_finished s = false →
  Str.find0 CRLFCRLF (HP.m_header s ++ concat chunks) = None →
  hp_push_chunks chunks s =
    Returns (HP.set_header (HP.m_header s ++ concat chunks) s).
Proof.
  revert s. induction chunks as [|c cs IH]; intros s Hf HN;
    cbn [hp_push_chunks concat] in *.
  - rewrite app_nil_r. by destruct s.
  - rewrite app_assoc in HN.
    rewrite hp_push_chunk_waiting; [|done|by eapply find0_app_None].
    cbn [obind]. rewrite IH; [by rewrite app_assoc | done | done].
Qed.

(** Chunks that together bring the terminator at [h]: the header, the
    map and the flag are those of the whole pushed at once; the body is
    what followed the terminator in the chunk that completed it, a prefix
    of what follows it in the whole. *)
Lemma hp_push_chunks_completes chunks s h :
  HP.m_header_finished s = false →
  Str.find0 CRLFCRLF (HP.m_header s) = None →
  Str.find0 CRLFCRLF (HP.m_header s ++ concat chunks) = Some h →
  ∃ body,
    hp_push_chunks chunks s =
      Returns
        (HP.mk (take h (HP.m_header s ++ concat chunks))
           (HP.m_header_line s)
           (header_map (HP.m_header_keys s)
              (header_lines (take h (HP.m_header s ++ concat chunks))))
           body true) ∧
    body `prefix_of` drop (h + 4) (HP.m_header s ++ concat chunks).
Proof.
  revert s. induction chunks as [|c cs IH]; intros s Hf H0 HS;
    cbn [hp_push_chunks concat] in *.
  - rewrite app_nil_r in HS. congruence.
  - rewrite app_assoc in HS. rewrite !app_assoc.
    destruct (Str.find0 CRLFCRLF (HP.m_header s ++ c)) as [h1|] eqn:F.
    + pose proof (find0_app_Some _ _ (concat cs) _ F) as F'.
      rewrite HS in F'. injection F' as ->.
      destruct (find0_Some _ _ _ F) as (_ & Hlen & _).
      cbn [length CRLFCRLF] in Hlen.
      rewrite (hp_push_chunk_completes _ _ h1) by done. cbn [obind].
      rewrite hp_push_chunks_finished by done.
      rewrite (take_app_le (HP.m_header s ++ c)) by lia.
      rewrite (drop_app_le (HP.m_header s ++ c)) by lia.
      eexists. split; [done|]. by apply prefix_app_r.
    + rewrite hp_push_chunk_waiting by done. cbn [obind].
      destruct (IH (HP.set_header (HP.m_header s ++ c) s)) as (body & E & Hp);
        [done | done | done |].
      hp_fields. by exists body.
Qed.

(** Any way of cutting a byte string into chunks gives the header parser
    the raw header, map, request line and flag of the string pushed whole;
    the body it keeps is a prefix of the whole's. *)
Lemma hp_split_agrees_up_to_body (chunks : list bytes) :
  ∃ s1 s2,
    hp_push_chunks chunks HP.init = Returns s1 ∧
    hp_push_chunks [concat chunks] HP.init = Returns s2 ∧
    HP.headers_raw s1 = HP.headers_raw s2 ∧
    HP.headers s1 = HP.headers s2 ∧
    HP.headline s1 = HP.headline s2 ∧
    HP.header_finished s1 = HP.header_finished s2 ∧
    HP.extra_body s1 `prefix_of` HP.extra_body s2.
Proof.
  destruct (Str.find0 CRLFCRLF (concat chunks)) as [h|] eqn:F.
  - destruct (hp_push_chunks_completes chunks HP.init h) as (b1 & E1 & P1);
      [done | done | done |].
    destruct (hp_push_chunks_completes [concat chunks] HP.init h) as (b2 & E2 & P2);
      [done | done | cbn [concat]; by rewrite app_nil_r |].
    cbn [hp_push_chunks] in E2.
    rewrite (hp_push_chunk_completes _ _ h) in E2 by done.
    cbn [obind] in E2. injection E2 as <-.
    eexists _, _. split; [done|]. split.
    { cbn [hp_push_chunks]. rewrite (hp_push_chunk_completes _ _ h) by done. done. }
    hp_fields. cbn [concat] in *. rewrite app_nil_r in *.
    by split_and!.
  - eexists _, _. split; [by apply hp_push_chunks_waiting|]. split.
    { apply hp_push_chunks_waiting; [done|]. cbn [concat]. by rewrite app_nil_r. }
    hp_fields. cbn [concat]. rewrite app_nil_r. by split_and!.
Qed.

End header_push_chunk.

(** ** [http_request_parser]: content length and [push_chunk] *)

Section request_push_chunk.

Lemma extract_content_length_absent p :
  RP.headers p !! str "content-length" = None →
  RP._extract_content_length p = Returns 0.
Proof. intros H. unfold RP._extract_content_length. by rewrite H. Qed.

Lemma extract_content_length_invalid p v :
  RP.headers p !! str "content-length" = Some v →
  Stoi.stoi v = Throws invalid_argument →
  RP._extract_content_length p = Returns 0.
Proof. intros H E. unfold RP._extract_content_length. by rewrite H, E. Qed.

(** A value [std::stoi] converts leads to the end of the function. *)
Lemma extract_content_length_converted p v n :
  RP.headers p !! str "content-length" = Some v →
  Stoi.stoi v = Returns n →
  RP._extract_content_length p = Undefined.
Proof. intros H E. unfold RP._extract_content_length. by rewrite H, E. Qed.

(** Whenever the function returns, it returns 0. *)
Lemma extract_content_length_returns p n :
  RP._extract_content_length p = Returns n → n = 0.
Proof.
  unfold RP._extract_content_length.
  destruct (RP.headers p !! str "content-length") as [v|]; [|by intros [= <-]].
  destruct (Stoi.stoi v) as [z|[]| | |]; try done. by intros [= <-].
Qed.

(** Once the headers are finished [push_chunk] has nothing left to do:
    its only branch is the one for unfinished headers. *)
Lemma rp_push_chunk_finished chunk p :
  HP.header_finished (RP.m_header_parser p) = true →
  RP.push_chunk chunk p = Returns p.
Proof. intros H. unfold RP.push_chunk. by rewrite H. Qed.

Lemma rp_push_chunk_waiting chunk p :
  HP.header_finished (RP.m_header_parser p) = false →
  Str.find0 CRLFCRLF (HP.m_header (RP.m_header_parser p) ++ chunk) = None →
  RP.push_chunk chunk p =
    Returns (RP.set_header_parser
               (HP.set_header (HP.m_header (RP.m_header_parser p) ++ chunk)
                  (RP.m_header_parser p)) p).
Proof.
  intros Hf HN. unfold RP.push_chunk. rewrite Hf.
  rewrite hp_push_chunk_waiting by done. cbn [obind]. rp_fields.
  unfold HP.header_finished in Hf. by rewrite Hf.
Qed.

(** The request line stays as the header parser left it. *)
Lemma rp_push_chunk_headline chunk p p' :
  RP.push_chunk chunk p = Returns p' →
  hp_inv (RP.m_header_parser p) → hp_inv (RP.m_header_parser p').
Proof.
  unfold RP.push_chunk.
  destruct (HP.header_finished (RP.m_header_parser p)) eqn:Hf;
    [by intros [= <-]|].
  destruct (hp_push_chunk_returns chunk (RP.m_header_parser p)) as [hp E].
  rewrite E. cbn [obind]. intros H Hi. rp_fields.
  pose proof (hp_inv_push_chunk _ _ _ Hi E) as Hi'.
  destruct (HP.m_header_finished hp) eqn:Hf'; cbv iota in H;
    [|by injection H as <-].
  destruct (RP._extract_content_length (RP.set_header_parser hp p)) as [n| | | |];
    try done.
  cbn [obind] in H.
  destruct (decide (n ≤ length (HP.m_body hp))); injection H as <-; rp_fields;
    [|done].
  destruct Hi' as (H1 & H2 & H3). split_and!; hp_fields; [done | done | congruence].
Qed.

Lemma rp_push_chunks_inv chunks p p' :
  rp_push_chunks chunks p = Returns p' →
  hp_inv (RP.m_header_parser p) → hp_inv (RP.m_header_parser p').
Proof.
  revert p. induction chunks as [|c cs IH]; intros p; cbn [rp_push_chunks].
  - by intros [= <-].
  - destruct (RP.push_chunk c p) as [p1| | | |] eqn:E; try done.
    cbn [obind]. intros H Hi. eapply IH; [done|].
    by eapply rp_push_chunk_headline.
Qed.

Lemma rp_push_chunks_waiting chunks p :
  HP.header_finished (RP.m_header_parser p) = false →
  Str.find0 CRLFCRLF (HP.m_header (RP.m_header_parser p) ++ concat chunks) = None →
  rp_push_chunks chunks p =
    Returns (RP.set_header_parser
               (HP.set_header (HP.m_header (RP.m_header_parser p) ++ concat chunks)
                  (RP.m_header_parser p)) p).
Proof.
  revert p. induction chunks as [|c cs IH]; intros p Hf HN;
    cbn [rp_push_chunks concat] in *.
  - rewrite app_nil_r. by destruct p as [[] ? ?].
  - rewrite app_assoc in HN.
    rewrite rp_push_chunk_waiting; [|done|by eapply find0_app_None].
    cbn [obind]. rewrite IH; rp_fields; [by rewrite app_assoc | done | done].
Qed.

(** The expected length is read off the map alone. *)
Lemma extract_content_length_headers p p' :
  RP.headers p = RP.headers p' →
  RP._extract_content_length p = RP._extract_content_length p'.
Proof. intros H. unfold RP._extract_content_length. by rewrite H. Qed.

(** The push that brings the terminator at [h]: whenever it returns, the
    expected length is 0, the request is finished and the body is cut to
    nothing. *)
Lemma rp_push_chunk_completes chunk p h :
  HP.header_finished (RP.m_header_parser p) = false →
  Str.find0 CRLFCRLF (HP.m_header (RP.m_header_parser p) ++ chunk) = Some h →
  let acc := HP.m_header (RP.m_header_parser p) ++ chunk in
  let keys := HeaderBlock.header_map (HP.m_header_keys (RP.m_header_parser p))
                (HeaderBlock.header_lines (take h acc)) in
  RP.push_chunk chunk p =
    (_ ←! RP._extract_content_length (RP.mk (HP.mk [] [] keys [] true) 0 false);
     Returns (RP.mk (HP.mk (take h acc) (HP.m_header_line (RP.m_header_parser p))
                       keys [] true) 0 true)).
Proof.
  intros Hf HS acc keys. unfold RP.push_chunk. rewrite Hf.
  rewrite (hp_push_chunk_completes _ _ h) by done. cbn [obind]. rp_fields.
  match goal with
  | |- context [RP._extract_content_length ?q] =>
      rewrite (extract_content_length_headers q
                 (RP.mk (HP.mk [] [] keys [] true) 0 false)) by done
  end.
  destruct (RP._extract_content_length _) as [n| | | |] eqn:E; try done.
  apply extract_content_length_returns in E as ->.
  cbn [obind]. rp_fields. rewrite decide_True by lia. done.
Qed.





(** [std::stoi] on some header values. *)
Example stoi_values :
  Stoi.stoi (str "5") = Returns 5%Z ∧
  Stoi.stoi (str " 12abc") = Returns 12%Z ∧
  Stoi.stoi (str "-5") = Returns (-5)%Z ∧
  Stoi.stoi (str "abc") = Throws invalid_argument ∧
  Stoi.stoi [] = Throws invalid_argument ∧
  Stoi.stoi (str "99999999999") = Throws out_of_range.
Proof. by split_and!. Qed.

End request_push_chunk.


(** ** Which entries the header map holds *)

Section header_map_lookup.

Import HeaderBlock.

Lemma add_line_lookup keys line k :
  add_line keys line !! k =
    match split_line line with
    | Some (kr, v) => if decide (HP.to_lower <$> kr = k) then Some v else keys !! k
    | None => keys !! k
    end.
Proof.
  unfold add_line. destruct (split_line line) as [[kr v]|]; [|done].
  by rewrite lookup_insert.
Qed.

Lemma line_key_split line kr v :
  split_line line = Some (kr, v) → line_key line = Some (HP.to_lower <$> kr).
Proof. intros H. unfold line_key. by rewrite H. Qed.

Lemma line_key_None line : split_line line = None → line_key line = None.
Proof. intros H. unfold line_key. by rewrite H. Qed.

(** An entry [k ↦ v] of the map built from [ls] on top of [keys] comes
    from the last line of [ls] whose folded key is [k], or, when no line
    has that key, from [keys]. *)
Lemma header_map_lookup ls keys k v :
  header_map keys ls !! k = Some v ↔
    (∃ pre line post kr,
        ls = pre ++ line :: post ∧ split_line line = Some (kr, v) ∧
        HP.to_lower <$> kr = k ∧ ∀ l, l ∈ post → line_key l ≠ Some k) ∨
    (keys !! k = Some v ∧ ∀ l, l ∈ ls → line_key l ≠ Some k).
Proof.
  revert keys. induction ls as [|l ls IH]; intros keys.
  - cbn. split.
    + intros H. right. split; [done|]. intros l Hl. by apply elem_of_nil in Hl.
    + intros [(pre & line & post & kr & E & _)|[H _]]; [|done].
      by destruct pre.
  - change (header_map keys (l :: ls)) with (header_map (add_line keys l) ls).
    rewrite IH, add_line_lookup. split.
    + intros [(pre & line & post & kr & -> & Hs & Hk & Hp)|[Hl Hn]].
      * left. exists (l :: pre), line, post, kr. by split_and!.
      * destruct (split_line l) as [[kr v']|] eqn:Es.
        -- destruct (decide (HP.to_lower <$> kr = k)) as [Hk|Hk].
           ++ injection Hl as ->. left. exists [], l, ls, kr. by split_and!.
           ++ right. split; [done|]. intros l' [->|Hl']%elem_of_cons; [|by apply Hn].
              rewrite (line_key_split _ _ _ Es). congruence.
        -- right. split; [done|]. intros l' [->|Hl']%elem_of_cons; [|by apply Hn].
           by rewrite line_key_None.
    + intros [(pre & line & post & kr & E & Hs & Hk & Hp)|[Hl Hn]].
      * destruct pre as [|l0 pre]; cbn in E; injection E as -> ->.
        -- right. rewrite Hs. rewrite decide_True by done. done.
        -- left. exists pre, line, post, kr. by split_and!.
      * right. split; [|intros l' Hl'; apply Hn; by right].
        assert (Hk : line_key l ≠ Some k) by (apply Hn; by left).
        destruct (split_line l) as [[kr v']|] eqn:Es; [|done].
        rewrite (line_key_split _ _ _ Es) in Hk.
        rewrite decide_False by congruence. done.
Qed.

Lemma to_lower_upper c :
  65 ≤ nat_of_ascii c ≤ 90 →
  nat_of_ascii (HP.to_lower c) = nat_of_ascii c + 32.
Proof.
  intros [H1 H2]. unfold HP.to_lower.
  rewrite (proj2 (Nat.leb_le _ _) H1), (proj2 (Nat.leb_le _ _) H2).
  cbn [andb]. apply nat_ascii_embedding. lia.
Qed.

Lemma to_lower_other c :
  ¬ (65 ≤ nat_of_ascii c ≤ 90) → HP.to_lower c = c.
Proof.
  intros H. unfold HP.to_lower.
  destruct (65 <=? nat_of_ascii c) eqn:E1; [|done].
  destruct (nat_of_ascii c <=? 90) eqn:E2; [|done].
  apply Nat.leb_le in E1, E2. lia.
Qed.

End header_map_lookup.


(** ** The read loop on a connection whose data hold no terminator *)

Section read_loop.

Import connection.

Lemma check_error_length (d : bytes) :
  check_error (Z.of_nat (length d)) = Returns (length d).
Proof.
  unfold check_error. rewrite decide_False by lia. by rewrite Nat2Z.id.
Qed.

(** What is left of a script of segments after one [read]. *)
Lemma read_segments d segs count :
  ∃ segs',
    read (Segment <$> (d :: segs)) count =
      (Z.of_nat (length (take count d)), take count d, Segment <$> segs') ∧
    concat segs' = drop count d ++ concat segs.
Proof.
  cbn [fmap list_fmap read]. destruct (drop count d) as [|c rest] eqn:E.
  - by exists segs.
  - exists ((c :: rest) :: segs). by split.
Qed.

(** As long as the accumulated header and all the data still to come
    hold no terminator, the loop is still running after any number of
    turns: on the closed connection every [read] returns 0, the empty
    chunk is pushed, and the loop condition holds again. *)
Lemma read_loop_spins fuel segs p :
  HP.header_finished (RP.m_header_parser p) = false →
  RP.request_finished p = false →
  Str.find0 CRLFCRLF (HP.m_header (RP.m_header_parser p) ++ concat segs) = None →
  read_loop fuel (Segment <$> segs) p = OutOfFuel.
Proof.
  revert segs p. induction fuel as [|fuel IH]; intros segs p Hh Hr HN; [done|].
  destruct segs as [|d segs].
  - cbn [read_loop fmap list_fmap read].
    change 0%Z with (Z.of_nat (length (@nil ascii))).
    rewrite check_error_length. cbn [obind length take].
    cbn [concat] in HN.
    rewrite rp_push_chunk_waiting by done. cbn [obind]. rp_fields.
    rewrite Hr. apply (IH []); rp_fields; [done | done |].
    cbn [concat]. by rewrite app_nil_r.
  - destruct (read_segments d segs BUF_SIZE) as (segs' & Hread & Hcat).
    cbn [read_loop]. rewrite Hread.
    rewrite check_error_length. cbn [obind].
    rewrite firstn_all.
    assert (HN' : Str.find0 CRLFCRLF
                    ((HP.m_header (RP.m_header_parser p) ++ take BUF_SIZE d)
                       ++ concat segs') = None).
    { rewrite Hcat, <- app_assoc, (app_assoc (take _ _)), take_drop. done. }
    rewrite rp_push_chunk_waiting; [|done|by eapply find0_app_None].
    cbn [obind]. rp_fields. rewrite Hr. apply IH; rp_fields; done.
Qed.

End read_loop.

(** * The claims *)

(** ** C1 *)

(** C1, at the request ["POST /submit HTTP/1.1\r\nContent-Length: 5\r\n\r\nhelloworld"]:
    the header parser returns with the entry [content-length ↦ "5"] and the
    ten body bytes, [std::stoi] converts ["5"] to 5, and
    [_extract_content_length] then reaches its end without a [return]:
    the call has no value, neither 5 nor another, and so has the
    [push_chunk] that makes it; no body of 5 bytes results. *)
Theorem C1_content_length_has_no_return :
  let req := str "POST /submit HTTP/1.1" ++ CRLF ++ str "Content-Length: 5"
             ++ CRLFCRLF ++ str "helloworld" in
  (∃ hp, HP.push_chunk req HP.init = Returns hp ∧
     HP.headers hp !! str "content-length" = Some (str "5") ∧
     HP.extra_body hp = str "helloworld" ∧
     RP._extract_content_length (RP.set_header_parser hp RP.init) = Undefined) ∧
  Stoi.stoi (str "5") = Returns 5%Z ∧
  RP.push_chunk req RP.init = Undefined.
Proof.
  split_and!.
  - eexists. split; [vm_compute; reflexivity|]. split_and!; reflexivity.
  - reflexivity.
  - reflexivity.
Qed.

(** ** The request without [content-length] *)

(** A request with no [content-length] header is finished by the push
    that brings the terminator, and its body is cut to the expected
    length 0, whatever followed the terminator. *)
Example get_without_content_length :
  let req := str "GET / HTTP/1.1" ++ CRLF ++ str "Host: x" ++ CRLFCRLF
             ++ str "hello" in
  ∃ p, RP.push_chunk req RP.init = Returns p ∧
    RP.headers p !! str "host" = Some (str "x") ∧
    RP.m_content_length p = 0 ∧
    RP.request_finished p = true ∧
    RP.body p = [].
Proof. eexists. split; [vm_compute; reflexivity|]. split_and!; reflexivity. Qed.

(** ** C2 *)

(** C2, what the code does instead: with the headers finished and the body
    shorter than the expected length, [push_chunk] returns the parser as it
    was; the chunk is not appended to the body and the request is still
    unfinished, also when the chunk brings the missing bytes. *)
Theorem C2_chunk_after_headers_is_dropped (p : RP.t) (chunk : bytes) :
  HP.header_finished (RP.m_header_parser p) = true →
  RP.request_finished p = false →
  length (RP.body p) < RP.m_content_length p →
  RP.push_chunk chunk p = Returns p ∧
  ∀ chunks, ∃ p',
    rp_push_chunks chunks p = Returns p' ∧
    RP.body p' = RP.body p ∧ RP.request_finished p' = false.
Proof.
  intros Hf Hr _. split; [by apply rp_push_chunk_finished|].
  intros chunks. exists p. split; [|done].
  induction chunks as [|c cs IH]; [done|].
  cbn [rp_push_chunks]. by rewrite rp_push_chunk_finished.
Qed.

Lemma C2_chunk_after_headers_is_dropped_witness :
  let hp := HP.mk (str "POST /submit HTTP/1.1" ++ CRLF ++ str "Content-Length: 5")
              [] {[ str "content-length" := str "5" ]} (str "he") true in
  let p := RP.mk hp 5 false in
  HP.header_finished (RP.m_header_parser p) = true ∧
  RP.request_finished p = false ∧
  length (RP.body p) < RP.m_content_length p ∧
  length (RP.body p ++ str "llo") = RP.m_content_length p ∧
  RP.push_chunk (str "llo") p = Returns p ∧
  ∀ chunks, ∃ p',
    rp_push_chunks chunks p = Returns p' ∧
    RP.body p' = str "he" ∧ RP.request_finished p' = false.
Proof.
  intros hp p. split; [reflexivity|]. split; [reflexivity|].
  split; [vm_compute; lia|]. split; [reflexivity|].
  apply (C2_chunk_after_headers_is_dropped p (str "llo"));
    [reflexivity | reflexivity | vm_compute; lia].
Defined.

(** ** C3 *)

(** C3, at the request ["POST /submit HTTP/1.1\r\nContent-Length: 5\r\n\r\nhello"]
    pushed whole, and pushed as two chunks cut after ["he"]: the header
    parser ends with the body ["hello"] for the whole and with ["he"] for
    the two chunks, the second chunk being ignored; the request parser has
    no final state in either run, [_extract_content_length] running off
    its end. *)
Theorem C3_split_inside_body_differs :
  let head := str "POST /submit HTTP/1.1" ++ CRLF ++ str "Content-Length: 5"
              ++ CRLFCRLF in
  let whole := head ++ str "hello" in
  let chunks := [head ++ str "he"; str "llo"] in
  concat chunks = whole ∧
  (∃ s1 s2,
     hp_push_chunks [whole] HP.init = Returns s1 ∧
     hp_push_chunks chunks HP.init = Returns s2 ∧
     HP.extra_body s1 = str "hello" ∧ HP.extra_body s2 = str "he" ∧
     HP.headers s1 = HP.headers s2 ∧ HP.headers_raw s1 = HP.headers_raw s2) ∧
  rp_push_chunks [whole] RP.init = Undefined ∧
  rp_push_chunks chunks RP.init = Undefined.
Proof.
  split_and!.
  - reflexivity.
  - eexists _, _. split; [vm_compute; reflexivity|].
    split; [vm_compute; reflexivity|]. split_and!; reflexivity.
  - reflexivity.
  - reflexivity.
Qed.

(** ** C4 *)

(** C4, what the code does instead: no member function assigns
    [m_header_line], so after any chunks the request line is empty and
    [method()] takes its default: it returns ["GET"], for a POST request
    too, although the first line of the accumulated header holds a space. *)
Theorem C4_method_is_always_GET (chunks : list bytes) (p : RP.t) :
  rp_push_chunks chunks RP.init = Returns p →
  HP.headline (RP.m_header_parser p) = [] ∧ RP.method p = Returns (str "GET").
Proof.
  intros H.
  destruct (rp_push_chunks_inv _ _ _ H hp_inv_init) as (Hl & _).
  split; [done|]. unfold RP.method. hp_fields. by rewrite Hl.
Qed.

Lemma C4_method_is_always_GET_witness :
  let req := str "POST /submit HTTP/1.1" ++ CRLF ++ str "Host: x" ++ CRLFCRLF in
  ∃ p, rp_push_chunks [req] RP.init = Returns p ∧
    RP.headers_raw p = str "POST /submit HTTP/1.1" ++ CRLF ++ str "Host: x" ∧
    HP.headline (RP.m_header_parser p) = [] ∧
    RP.method p = Returns (str "GET").
Proof.
  intros req. eexists. split; [vm_compute; reflexivity|].
  split; [reflexivity|].
  eapply (C4_method_is_always_GET [req]). vm_compute. reflexivity.
Defined.

(** ** C5 *)

(** C5: when the terminator first occurs at offset [h] of the accumulated
    bytes, the [push_chunk] call that completes it returns with
    [header_finished] true, the body buffer equal to the bytes after the
    terminator and the accumulator cut to the [h] bytes before it; these
    hold no terminator.  And every parser started from [init] whose headers
    are finished has an accumulator without terminator. *)
Theorem C5_terminator_splits_accumulator :
  (∀ (s : HP.t) (chunk : bytes) (h : nat),
      HP.header_finished s = false →
      Str.find0 CRLFCRLF (HP.headers_raw s ++ chunk) = Some h →
      ∃ s', HP.push_chunk chunk s = Returns s' ∧
        HP.header_finished s' = true ∧
        HP.extra_body s' = drop (h + 4) (HP.headers_raw s ++ chunk) ∧
        HP.headers_raw s' = take h (HP.headers_raw s ++ chunk) ∧
        Str.find0 CRLFCRLF (HP.headers_raw s') = None) ∧
  (∀ (chunks : list bytes) (s : HP.t),
      hp_push_chunks chunks HP.init = Returns s →
      HP.header_finished s = true →
      Str.find0 CRLFCRLF (HP.headers_raw s) = None).
Proof.
  split.
  - intros s chunk h Hf HS. eexists. split.
    + by apply (hp_push_chunk_completes chunk s h).
    + hp_fields. split_and!; [done | done | done |].
      by apply find0_take; [apply CRLFCRLF_nonempty|].
  - intros chunks s H _.
    by destruct (hp_inv_push_chunks _ _ _ hp_inv_init H) as (_ & ? & _).
Qed.

Lemma C5_terminator_splits_accumulator_witness :
  let s := HP.set_header (str "GET / HTTP/1.1" ++ [CR; LF; CR]) HP.init in
  let chunk := LF :: str "hello" in
  HP.header_finished s = false ∧
  Str.find0 CRLFCRLF (HP.headers_raw s ++ chunk) = Some 14 ∧
  ∃ s', HP.push_chunk chunk s = Returns s' ∧
    HP.header_finished s' = true ∧
    HP.extra_body s' = str "hello" ∧
    HP.headers_raw s' = str "GET / HTTP/1.1" ∧
    Str.find0 CRLFCRLF (HP.headers_raw s') = None.
Proof.
  intros s chunk. split; [reflexivity|]. split; [reflexivity|].
  apply (proj1 C5_terminator_splits_accumulator s chunk 14);
    reflexivity.
Defined.

(** ** C6 *)

Section header_map_entries.

Import HeaderBlock.

(** Entries are never removed. *)
Lemma header_map_keeps ls keys k :
  is_Some (keys !! k) → is_Some (header_map keys ls !! k).
Proof.
  revert keys. induction ls as [|l ls IH]; intros keys Hk; [done|].
  change (header_map keys (l :: ls)) with (header_map (add_line keys l) ls).
  apply IH. rewrite add_line_lookup.
  destruct (split_line l) as [[kr v]|]; [|done].
  by destruct (decide (HP.to_lower <$> kr = k)).
Qed.

(** Every line with the delimiter leaves an entry under its folded key. *)
Lemma header_map_has_key ls keys line kr v :
  line ∈ ls → split_line line = Some (kr, v) →
  is_Some (header_map keys ls !! (HP.to_lower <$> kr)).
Proof.
  revert keys. induction ls as [|l ls IH]; intros keys Hin Hs.
  - by apply elem_of_nil in Hin.
  - change (header_map keys (l :: ls)) with (header_map (add_line keys l) ls).
    apply elem_of_cons in Hin as [<-|Hin]; [|by apply IH].
    apply header_map_keeps. rewrite add_line_lookup, Hs.
    by rewrite decide_True.
Qed.

Lemma split_line_Some line colon :
  Str.find0 (str ": ") line = Some colon →
  split_line line = Some (take colon line, drop (colon + 2) line).
Proof. intros H. unfold split_line. by rewrite H. Qed.

Lemma split_line_inv line kr v :
  split_line line = Some (kr, v) →
  ∃ colon, Str.find0 (str ": ") line = Some colon ∧
    kr = take colon line ∧ v = drop (colon + 2) line.
Proof.
  unfold split_line. destruct (Str.find0 (str ": ") line) as [colon|]; [|done].
  intros [= <- <-]. by exists colon.
Qed.

End header_map_entries.

(** C6: on a header block, [_extract_headers] returns (no error, whatever
    the lines look like) and changes the map only.  Every line after the
    request line that holds [": "] leaves an entry under the text before
    its first [": "], folded; the map holds [k ↦ v] exactly when the last
    line whose folded key is [k] has the text [v] after its first [": "],
    so lines without the delimiter add nothing and a later line overwrites
    an earlier one.  Folding moves ['A'..'Z'] to ['a'..'z'] and leaves
    every other byte, so the three spellings of Content-Length fold to the
    same key. *)
Theorem C6_header_map (s : HP.t) :
  HP.headers s = ∅ →
  ∃ keys,
    HP._extract_headers s = Returns (HP.set_header_keys keys s) ∧
    (∀ line colon,
        line ∈ HeaderBlock.header_lines (HP.headers_raw s) →
        Str.find0 (str ": ") line = Some colon →
        is_Some (keys !! (HP.to_lower <$> take colon line))) ∧
    (∀ k v,
        keys !! k = Some v ↔
        ∃ pre line post colon,
          HeaderBlock.header_lines (HP.headers_raw s) = pre ++ line :: post ∧
          Str.find0 (str ": ") line = Some colon ∧
          k = HP.to_lower <$> take colon line ∧
          v = drop (colon + 2) line ∧
          ∀ l c, l ∈ post → Str.find0 (str ": ") l = Some c →
                 HP.to_lower <$> take c l ≠ k) ∧
    (∀ c, 65 ≤ nat_of_ascii c ≤ 90 →
          nat_of_ascii (HP.to_lower c) = nat_of_ascii c + 32) ∧
    (∀ c, ¬ (65 ≤ nat_of_ascii c ≤ 90) → HP.to_lower c = c) ∧
    HP.to_lower <$> str "Content-Length" = str "content-length" ∧
    HP.to_lower <$> str "CONTENT-LENGTH" = str "content-length" ∧
    HP.to_lower <$> str "content-length" = str "content-length".
Proof.
  intros He. hp_fields. eexists. split; [apply extract_headers_spec|].
  rewrite He. split_and!.
  - intros line colon Hin Hf.
    eapply header_map_has_key; [done|]. by apply split_line_Some.
  - intros k v. rewrite header_map_lookup. split.
    + intros [(pre & line & post & kr & E & Hs & Hk & Hp)|[H _]]; [|done].
      apply split_line_inv in Hs as (colon & Hf & -> & ->).
      exists pre, line, post, colon. split_and!; [done | done | done | done |].
      intros l c Hl Hc Hkey. apply (Hp l Hl).
      rewrite (line_key_split _ _ _ (split_line_Some _ _ Hc)). congruence.
    + intros (pre & line & post & colon & E & Hf & -> & -> & Hp). left.
      exists pre, line, post, (take colon line).
      split_and!; [done | by apply split_line_Some | done |].
      intros l Hl Hkey. unfold HeaderBlock.line_key in Hkey.
      destruct (HeaderBlock.split_line l) as [[kr v]|] eqn:Es; [|done].
      apply split_line_inv in Es as (c & Hc & -> & ->).
      injection Hkey as Hkey. by apply (Hp l c).
  - apply to_lower_upper.
  - apply to_lower_other.
  - reflexivity.
  - reflexivity.
  - reflexivity.
Qed.

Lemma C6_header_map_witness :
  let hdr := str "GET / HTTP/1.1" ++ CRLF ++ str "Content-Length: 1" ++ CRLF
             ++ str "no delimiter here" ++ CRLF ++ str "CONTENT-LENGTH: 22" in
  let s := HP.set_header hdr HP.init in
  HP.headers s = ∅ ∧
  ∃ keys,
    HP._extract_headers s = Returns (HP.set_header_keys keys s) ∧
    (∀ line colon,
        line ∈ HeaderBlock.header_lines (HP.headers_raw s) →
        Str.find0 (str ": ") line = Some colon →
        is_Some (keys !! (HP.to_lower <$> take colon line))) ∧
    (∀ k v,
        keys !! k = Some v ↔
        ∃ pre line post colon,
          HeaderBlock.header_lines (HP.headers_raw s) = pre ++ line :: post ∧
          Str.find0 (str ": ") line = Some colon ∧
          k = HP.to_lower <$> take colon line ∧
          v = drop (colon + 2) line ∧
          ∀ l c, l ∈ post → Str.find0 (str ": ") l = Some c →
                 HP.to_lower <$> take c l ≠ k) ∧
    (∀ c, 65 ≤ nat_of_ascii c ≤ 90 →
          nat_of_ascii (HP.to_lower c) = nat_of_ascii c + 32) ∧
    (∀ c, ¬ (65 ≤ nat_of_ascii c ≤ 90) → HP.to_lower c = c) ∧
    HP.to_lower <$> str "Content-Length" = str "content-length" ∧
    HP.to_lower <$> str "CONTENT-LENGTH" = str "content-length" ∧
    HP.to_lower <$> str "content-length" = str "content-length".
Proof.
  intros hdr s. split; [reflexivity|].
  apply (C6_header_map s). reflexivity.
Defined.

(** An example of the above: the later of two spellings of one header is
    the value looked up, and the line without delimiter is skipped. *)
Example header_map_last_wins :
  let req := str "GET / HTTP/1.1" ++ CRLF ++ str "Content-Length: 1" ++ CRLF
             ++ str "no delimiter here" ++ CRLF ++ str "CONTENT-LENGTH: 22"
             ++ CRLFCRLF in
  ∃ s, HP.push_chunk req HP.init = Returns s ∧
    HP.headers s !! str "content-length" = Some (str "22") ∧
    size (HP.headers s) = 1.
Proof. eexists. split; [vm_compute; reflexivity|]. split; reflexivity. Qed.

(** ** C7 *)

(** C7, what the code does instead: the request line being empty after
    any chunks, [url()] returns its default ["GET"]; and on a parser whose
    request line is ["GET /index.html HTTP/1.1"] the second search starts
    at the first space and finds it again, so [url()] returns
    [substr(3, 3)], the three bytes [" /i"], not ["/index.html"]. *)
Theorem C7_url_is_not_the_path :
  (∀ (chunks : list bytes) (p : RP.t),
      rp_push_chunks chunks RP.init = Returns p →
      RP.url p = Returns (str "GET")) ∧
  (let hp := HP.mk [] (str "GET /index.html HTTP/1.1") ∅ [] true in
   RP.url (RP.mk hp 0 true) = Returns (str " /i")).
Proof.
  split; [|reflexivity].
  intros chunks p H.
  destruct (rp_push_chunks_inv _ _ _ H hp_inv_init) as (Hl & _).
  unfold RP.url. hp_fields. by rewrite Hl.
Qed.

Lemma C7_url_is_not_the_path_witness :
  let req := str "GET /index.html HTTP/1.1" ++ CRLF ++ str "Host: x" ++ CRLFCRLF in
  ∃ p, rp_push_chunks [req] RP.init = Returns p ∧
    RP.request_finished p = true ∧
    RP.url p = Returns (str "GET").
Proof.
  intros req. eexists. split; [vm_compute; reflexivity|].
  split; [reflexivity|].
  eapply (proj1 C7_url_is_not_the_path [req]). vm_compute. reflexivity.
Defined.

(** ** C8 *)

(** C8: when the concatenation of the chunks holds no terminator,
    [header_finished()] is false after every push, in the header parser
    and in the request parser that forwards to it, and the request is not
    finished either. *)
Theorem C8_no_terminator_never_finishes (chunks : list bytes) (k : nat) :
  Str.find0 CRLFCRLF (concat chunks) = None →
  (∃ s, hp_push_chunks (take k chunks) HP.init = Returns s ∧
     HP.header_finished s = false) ∧
  (∃ p, rp_push_chunks (take k chunks) RP.init = Returns p ∧
     HP.header_finished (RP.m_header_parser p) = false ∧
     RP.request_finished p = false).
Proof.
  intros HN.
  assert (HN' : Str.find0 CRLFCRLF (concat (take k chunks)) = None).
  { rewrite <- (take_drop k chunks), concat_app in HN.
    by eapply find0_app_None. }
  split.
  - eexists. split; [by apply hp_push_chunks_waiting|done].
  - eexists. split; [by apply rp_push_chunks_waiting|done].
Qed.

Lemma C8_no_terminator_never_finishes_witness :
  let chunks := [str "GET / HT"; str "TP/1.1" ++ [CR]; LF :: str "Host: x" ++ CRLF ++ [CR]] in
  Str.find0 CRLFCRLF (concat chunks) = None ∧
  (∃ s, hp_push_chunks (take 3 chunks) HP.init = Returns s ∧
     HP.header_finished s = false) ∧
  (∃ p, rp_push_chunks (take 3 chunks) RP.init = Returns p ∧
     HP.header_finished (RP.m_header_parser p) = false ∧
     RP.request_finished p = false).
Proof.
  intros chunks. split; [reflexivity|].
  apply (C8_no_terminator_never_finishes chunks 3). reflexivity.
Defined.

(** ** C9 *)

(** C9, what the code does instead: when the segments a peer sends before
    it closes hold no terminator, the read loop is still running after
    any number of turns; it neither stops reading nor returns.  Every
    [read] on the closed connection returns 0, which [check_error] lets
    through, and the empty chunk leaves the request unfinished. *)
Theorem C9_read_loop_never_stops_at_eof (segs : list bytes) (fuel : nat) :
  Str.find0 CRLFCRLF (concat segs) = None →
  connection.read_loop fuel (connection.Segment <$> segs) RP.init = OutOfFuel ∧
  connection.read [] connection.BUF_SIZE = (0%Z, [], []) ∧
  connection.check_error 0 = Returns 0.
Proof.
  intros HN. split; [|done]. by apply read_loop_spins.
Qed.

Lemma C9_read_loop_never_stops_at_eof_witness :
  let segs := [str "GET / HTTP/1.1" ++ CRLF; str "Host: x" ++ CRLF] in
  Str.find0 CRLFCRLF (concat segs) = None ∧
  connection.read_loop 1000 (connection.Segment <$> segs) RP.init = OutOfFuel ∧
  connection.read [] connection.BUF_SIZE = (0%Z, [], []) ∧
  connection.check_error 0 = Returns 0.
Proof.
  intros segs. split; [reflexivity|].
  apply (C9_read_loop_never_stops_at_eof segs 1000). reflexivity.
Defined.

(** ** C10 *)

(** C10: for a parser started from [init], while [header_finished()] is
    false the header map, the request line and the body are empty; a push
    that leaves the headers unfinished changes the accumulator only, by
    appending the chunk; a push on finished headers changes nothing, so the
    map, the request line and the body are written at most once, by the
    push that finds the terminator. *)
Theorem C10_empty_until_finished :
  (∀ (chunks : list bytes) (s : HP.t),
      hp_push_chunks chunks HP.init = Returns s →
      HP.header_finished s = false →
      HP.headers s = ∅ ∧ HP.headline s = [] ∧ HP.extra_body s = []) ∧
  (∀ (chunk : bytes) (s s' : HP.t),
      HP.push_chunk chunk s = Returns s' →
      HP.header_finished s' = false →
      s' = HP.set_header (HP.headers_raw s ++ chunk) s) ∧
  (∀ (chunk : bytes) (s : HP.t),
      HP.header_finished s = true → HP.push_chunk chunk s = Returns s) ∧
  (∀ (chunks : list bytes) (s : HP.t),
      ∃ s', hp_push_chunks chunks s = Returns s').
Proof.
  split_and!.
  - intros chunks s H Hf.
    destruct (hp_inv_push_chunks _ _ _ hp_inv_init H) as (Hl & _ & He).
    destruct (He Hf) as [Hk Hb]. hp_fields. done.
  - intros chunk s s' H Hf'. hp_fields.
    destruct (HP.m_header_finished s) eqn:Hf.
    + rewrite hp_push_chunk_finished in H by done. injection H as <-. congruence.
    + destruct (Str.find0 CRLFCRLF (HP.m_header s ++ chunk)) as [h|] eqn:F.
      * rewrite (hp_push_chunk_completes _ _ h) in H by done.
        injection H as <-. done.
      * rewrite hp_push_chunk_waiting in H by done. by injection H as <-.
  - intros chunk s Hf. by apply hp_push_chunk_finished.
  - intros chunks s. apply hp_push_chunks_returns.
Qed.

Lemma C10_empty_until_finished_witness :
  let chunks := [str "GET / HTTP/1.1" ++ CRLF; str "Host: x" ++ CRLF] in
  let s := HP.set_header (concat chunks) HP.init in
  hp_push_chunks chunks HP.init = Returns s ∧
  HP.header_finished s = false ∧
  HP.headers s = ∅ ∧ HP.headline s = [] ∧ HP.extra_body s = [].
Proof.
  intros chunks s. split; [reflexivity|]. split; [reflexivity|].
  apply (proj1 C10_empty_until_finished chunks s); reflexivity.
Defined.

(** * Further properties of the parser and the connection handler *)

(** ** More on [find] *)

Section find_more.

Implicit Types n s : bytes.

Lemma find0_drop_None n s j :
  Str.find0 n s = None → Str.find0 n (drop j s) = None.
Proof.
  intros HN. destruct (Str.find0 n (drop j s)) as [i|] eqn:F; [|done].
  destruct (find0_Some _ _ _ F) as (H1 & _ & _).
  rewrite drop_drop in H1. by rewrite (find0_None n s _ HN) in H1.
Qed.

Lemma find0_take_None n s j :
  Str.find0 n s = None → Str.find0 n (take j s) = None.
Proof.
  intros HN. rewrite <- (take_drop j s) in HN. by eapply find0_app_None.
Qed.

(** A byte map that sends to the bytes of [n] only these bytes themselves
    neither creates nor removes an occurrence of [n]. *)
Lemma starts_with_fmap (f : ascii → ascii) n s :
  (∀ x c, x ∈ n → Ascii.eqb x (f c) = Ascii.eqb x c) →
  Str.starts_with n (f <$> s) = Str.starts_with n s.
Proof.
  revert s. induction n as [|x n IH]; intros s Hf; [done|].
  destruct s as [|c s]; [done|]. cbn [fmap list_fmap Str.starts_with].
  rewrite Hf by left. f_equal. apply IH. intros y d Hy. apply Hf. by right.
Qed.

Lemma find0_fmap (f : ascii → ascii) n s :
  (∀ x c, x ∈ n → Ascii.eqb x (f c) = Ascii.eqb x c) →
  Str.find0 n (f <$> s) = Str.find0 n s.
Proof.
  intros Hf. induction s as [|c s IH].
  - rewrite !find0_unfold. change (f <$> []) with (@nil ascii). done.
  - rewrite (find0_unfold n (c :: s)), <- (starts_with_fmap f n (c :: s)) by done.
    rewrite <- IH. by rewrite find0_unfold.
Qed.

Lemma to_lower_not_upper c :
  ¬ (65 ≤ nat_of_ascii (HP.to_lower c) ≤ 90).
Proof.
  destruct (decide (65 ≤ nat_of_ascii c ≤ 90)) as [H|H].
  - rewrite to_lower_upper by done. lia.
  - by rewrite to_lower_other.
Qed.

(** A byte that is no letter is the image of itself only. *)
Lemma eqb_to_lower x c :
  no_letter x → Ascii.eqb x (HP.to_lower c) = Ascii.eqb x c.
Proof.
  intros [Hu Hl]. destruct (decide (65 ≤ nat_of_ascii c ≤ 90)) as [H|H].
  - assert (Ascii.eqb x (HP.to_lower c) = false) as ->.
    { apply Ascii.eqb_neq. intros ->. rewrite to_lower_upper in Hl by done. lia. }
    symmetry. apply Ascii.eqb_neq. intros ->. lia.
  - by rewrite to_lower_other.
Qed.

Lemma find0_to_lower n s :
  Forall no_letter n →
  Str.find0 n (HP.to_lower <$> s) = Str.find0 n s.
Proof.
  intros Hn. apply find0_fmap. intros x c Hx. apply eqb_to_lower.
  by eapply Forall_forall in Hn.
Qed.

End find_more.

(** ** The header parser started from [init] *)

Section from_init.

Import HeaderBlock.

(** The two shapes of a header parser after any chunks: still waiting,
    with all the bytes in the accumulator, or finished at the first
    terminator of the bytes pushed. *)
Lemma hp_push_chunks_init chunks s :
  hp_push_chunks chunks HP.init = Returns s →
  (Str.find0 CRLFCRLF (concat chunks) = None ∧
   s = HP.set_header (concat chunks) HP.init) ∨
  (∃ h body,
      Str.find0 CRLFCRLF (concat chunks) = Some h ∧
      s = HP.mk (take h (concat chunks)) []
            (header_map ∅ (header_lines (take h (concat chunks)))) body true ∧
      body `prefix_of` drop (h + 4) (concat chunks)).
Proof.
  intros H. destruct (Str.find0 CRLFCRLF (concat chunks)) as [h|] eqn:F.
  - right. destruct (hp_push_chunks_completes chunks HP.init h) as (b & E & P);
      [done | done | done |].
    rewrite E in H. injection H as <-. by exists h, b.
  - left. rewrite (hp_push_chunks_waiting chunks) in H by done.
    injection H as <-. done.
Qed.

Lemma elem_of_tail {A} (x : A) (l : list A) : x ∈ tail l → x ∈ l.
Proof. destruct l; [done|]. cbn. by right. Qed.

Lemma no_letter_delimiter : Forall no_letter (str ": ").
Proof.
  repeat first [apply List.Forall_cons | apply List.Forall_nil];
    split; vm_compute; lia.
Qed.

Lemma no_letter_CRLF : Forall no_letter CRLF.
Proof.
  repeat first [apply List.Forall_cons | apply List.Forall_nil];
    split; vm_compute; lia.
Qed.

(** The occurrence [find0] reports splits the string in three. *)
Lemma find0_split n s i :
  Str.find0 n s = Some i → s = take i s ++ n ++ drop (i + length n) s.
Proof.
  intros F. destruct (find0_Some _ _ _ F) as (Hocc & _ & _).
  apply starts_with_spec in Hocc as [t Ht].
  rewrite <- (take_drop i s) at 1. f_equal.
  rewrite <- drop_drop, Ht. by rewrite drop_app_length.
Qed.

(** An empty chunk leaves a parser with the invariant as it is. *)
Lemma rp_push_empty_chunk p :
  hp_inv (RP.m_header_parser p) → RP.push_chunk [] p = Returns p.
Proof.
  intros (_ & HN & _).
  destruct (HP.header_finished (RP.m_header_parser p)) eqn:Hf.
  - by apply rp_push_chunk_finished.
  - rewrite rp_push_chunk_waiting; [|done|by rewrite app_nil_r].
    rewrite app_nil_r. by destruct p as [[] ? ?].
Qed.

End from_init.

(** ** [std::to_string] and [std::stoi] *)

Section to_string.

Import ToString.

Lemma digit_code d : d < 10 → nat_of_ascii (digit d) = 48 + d.
Proof. intros H. unfold digit. apply nat_ascii_embedding. lia. Qed.

Lemma digit_isdigit d : d < 10 → Stoi.isdigit (digit d) = true.
Proof.
  intros H. unfold Stoi.isdigit. rewrite digit_code by done.
  apply andb_true_iff. split; apply Nat.leb_le; lia.
Qed.

Lemma digits_value_digit a d rest :
  d < 10 →
  Stoi.digits_value a (digit d :: rest) =
    Stoi.digits_value (10 * a + Z.of_nat d) rest.
Proof.
  intros H. cbn [Stoi.digits_value]. rewrite digit_isdigit, digit_code by done.
  f_equal. lia.
Qed.

(** The digit loop puts at least one digit in front of [acc], only
    digits, and [digits_value] reads them back as [n]. *)
Lemma digits_spec fuel n acc :
  n < fuel →
  ∃ ds, digits fuel n acc = ds ++ acc ∧ ds ≠ [] ∧
    Forall (λ c, Stoi.isdigit c = true) ds ∧
    ∀ a rest, Stoi.digits_value a (ds ++ rest) =
              Stoi.digits_value (a * 10 ^ Z.of_nat (length ds) + Z.of_nat n) rest.
Proof.
  revert n acc. induction fuel as [|fuel IH]; intros n acc Hn; [lia|].
  cbn [digits]. pose proof (Nat.mod_upper_bound n 10 ltac:(lia)) as Hm.
  destruct (n <? 10) eqn:E.
  - apply Nat.ltb_lt in E. exists [digit (n mod 10)]. split_and!; [done | done | |].
    + constructor; [by apply digit_isdigit | constructor].
    + intros a rest. cbn [app length]. rewrite digits_value_digit by done.
      rewrite Nat.mod_small by done. f_equal. lia.
  - apply Nat.ltb_ge in E.
    assert (Hd : n / 10 < fuel).
    { pose proof (Nat.div_lt n 10 ltac:(lia) ltac:(lia)). lia. }
    destruct (IH (n / 10) (digit (n mod 10) :: acc) Hd) as (ds & -> & Hne & Hall & Hval).
    exists (ds ++ [digit (n mod 10)]). split_and!.
    + by rewrite <- app_assoc.
    + by destruct ds.
    + apply Forall_app. split; [done|].
      constructor; [by apply digit_isdigit | constructor].
    + intros a rest. rewrite <- app_assoc. cbn [app].
      rewrite Hval, digits_value_digit by done. f_equal.
      rewrite length_app. cbn [length].
      rewrite Nat2Z.inj_add, Z.pow_add_r by lia.
      pose proof (Nat.div_mod_eq n 10) as Hdm.
      apply (f_equal Z.of_nat) in Hdm.
      rewrite Nat2Z.inj_add, Nat2Z.inj_mul in Hdm. lia.
Qed.

Lemma to_string_digits n :
  to_string n ≠ [] ∧ Forall (λ c, Stoi.isdigit c = true) (to_string n) ∧
  Stoi.digits_value 0 (to_string n) = Z.of_nat n.
Proof.
  unfold to_string. destruct (digits_spec (S n) n [] ltac:(lia))
    as (ds & -> & Hne & Hall & Hval).
  rewrite app_nil_r. split_and!; [done | done |].
  specialize (Hval 0%Z []). rewrite app_nil_r in Hval. rewrite Hval.
  cbn [Stoi.digits_value]. lia.
Qed.

Lemma isdigit_plain c :
  Stoi.isdigit c = true →
  Stoi.isspace c = false ∧ (nat_of_ascii c =? 45) = false ∧
  (nat_of_ascii c =? 43) = false ∧ Ascii.eqb CR c = false.
Proof.
  unfold Stoi.isdigit, Stoi.isspace. intros [H1 H2]%andb_true_iff.
  apply Nat.leb_le in H1, H2. split_and!.
  - apply orb_false_iff. split; [apply Nat.eqb_neq; lia|].
    apply andb_false_iff. right. apply Nat.leb_gt. lia.
  - apply Nat.eqb_neq. lia.
  - apply Nat.eqb_neq. lia.
  - apply Ascii.eqb_neq. intros <-. vm_compute in H1. lia.
Qed.

(** [std::stoi] reads a string of digits as [digits_value] does, within
    the range of [int]. *)
Lemma stoi_digits ds :
  ds ≠ [] → Forall (λ c, Stoi.isdigit c = true) ds →
  Stoi.stoi ds =
    if decide (Stoi.digits_value 0 ds ≤ Stoi.INT_MAX)%Z
    then Returns (Stoi.digits_value 0 ds) else Throws out_of_range.
Proof.
  intros Hne Hall. destruct ds as [|c ds]; [done|].
  apply Forall_cons in Hall as [Hc Hall].
  destruct (isdigit_plain c Hc) as (Hs & Hm & Hp & _).
  unfold Stoi.stoi. cbn [Stoi.skip_spaces]. rewrite Hs.
  cbn [Stoi.strip_sign]. rewrite Hm, Hp, Hc.
  assert (Hge : (0 ≤ Stoi.digits_value 0 (c :: ds))%Z).
  { assert (G : ∀ l a, (0 ≤ a)%Z → (0 ≤ Stoi.digits_value a l)%Z).
    { clear. induction l as [|x l IH]; intros a Ha; cbn [Stoi.digits_value]; [done|].
      destruct (Stoi.isdigit x) eqn:E; [|done]. apply IH.
      unfold Stoi.isdigit in E. apply andb_true_iff in E as [E _].
      apply Nat.leb_le in E. lia. }
    by apply G. }
  destruct (decide (Stoi.digits_value 0 (c :: ds) ≤ Stoi.INT_MAX)%Z) as [Hle|Hgt].
  - rewrite (proj2 (Z.leb_le _ _)) by (unfold Stoi.INT_MIN; lia).
    by rewrite (proj2 (Z.leb_le _ _) Hle).
  - rewrite (proj2 (Z.leb_gt (Stoi.digits_value 0 (c :: ds)) Stoi.INT_MAX)) by lia.
    by rewrite andb_false_r.
Qed.

End to_string.

(** ** The response parsed back *)

Section response.

Import HeaderBlock ToString.

(** A mismatch inside [a] is a mismatch of [a ++ s]. *)
Lemma starts_with_app_false n a s :
  Str.starts_with (take (length a) n) a = false →
  Str.starts_with n (a ++ s) = false.
Proof.
  revert a. induction n as [|x n IH]; intros a.
  - by rewrite take_nil.
  - destruct a as [|y a]; [done|]. cbn [length take app Str.starts_with].
    destruct (Ascii.eqb x y); [|done]. cbn [andb]. apply IH.
Qed.

(** When no occurrence of [n] starts inside [a], not even one that would
    run on into what follows, the search over [a ++ s] is the search
    over [s]. *)
Lemma find0_skip_prefix n a s :
  (∀ j, j < length a →
        Str.starts_with (take (length a - j) n) (drop j a) = false) →
  Str.find0 n (a ++ s) = (λ i, length a + i) <$> Str.find0 n s.
Proof.
  intros Ha.
  assert (Hin : ∀ j, j < length a → Str.starts_with n (drop j (a ++ s)) = false).
  { intros j Hj. rewrite drop_app_le by lia. apply starts_with_app_false.
    rewrite length_drop. by apply Ha. }
  destruct (Str.find0 n s) as [i|] eqn:F; cbn [fmap option_fmap option_map].
  - destruct (find0_Some _ _ _ F) as (H1 & H2 & H3). apply find0_first.
    + rewrite drop_app_ge by lia. by replace (length a + i - length a) with i by lia.
    + rewrite length_app. lia.
    + intros j Hj. destruct (decide (j < length a)) as [Hlt|Hge]; [by apply Hin|].
      rewrite drop_app_ge by lia. apply H3. lia.
  - destruct (Str.find0 n (a ++ s)) as [k|] eqn:G; [|done].
    destruct (find0_Some _ _ _ G) as (G1 & _ & _).
    destruct (decide (k < length a)) as [Hlt|Hge].
    + by rewrite Hin in G1.
    + rewrite drop_app_ge in G1 by lia. by rewrite (find0_None n s _ F) in G1.
Qed.

(** The same, with the condition on a constant [a] as a computation. *)
Lemma find0_skip_constant n a s :
  forallb (λ j, negb (Str.starts_with (take (length a - j) n) (drop j a)))
    (seq 0 (length a)) = true →
  Str.find0 n (a ++ s) = (λ i, length a + i) <$> Str.find0 n s.
Proof.
  intros H. apply find0_skip_prefix. intros j Hj.
  rewrite forallb_forall in H. apply negb_true_iff, H, in_seq. lia.
Qed.

(** Digits hold no part of a needle that starts with a carriage return. *)
Lemma find0_skip_digits n ds s :
  Forall (λ c, Stoi.isdigit c = true) ds →
  Str.find0 (CR :: n) (ds ++ s) = (λ i, length ds + i) <$> Str.find0 (CR :: n) s.
Proof.
  intros Hall. apply find0_skip_prefix. intros j Hj.
  destruct (drop j ds) as [|d rest] eqn:E.
  { apply (f_equal length) in E. rewrite length_drop in E. cbn in E. lia. }
  assert (Hd : Stoi.isdigit d = true).
  { rewrite <- (take_drop j ds), E in Hall.
    apply Forall_app in Hall as [_ Hall]. by apply Forall_cons in Hall as [? _]. }
  destruct (length ds - j) as [|m] eqn:Em; [lia|].
  cbn [take Str.starts_with].
  by destruct (isdigit_plain d Hd) as (_ & _ & _ & ->).
Qed.

Lemma find0_digits_None n ds :
  Forall (λ c, Stoi.isdigit c = true) ds → Str.find0 (CR :: n) ds = None.
Proof.
  intros Hall. rewrite <- (app_nil_r ds), find0_skip_digits by done. done.
Qed.

(** The constant part of the response. *)
Lemma response_unfold body :
  server.response body =
    (str "HTTP/1.1 200 OK" ++ CRLF ++ str "Server: my_server" ++ CRLF
     ++ str "Connection: close" ++ CRLF ++ str "Content-length: ")
    ++ to_string (length body) ++ CRLFCRLF ++ body.
Proof. reflexivity. Qed.

(** The first terminator of a response is the one the handler writes
    after the length, wherever the body holds others. *)
Lemma response_terminator body :
  Str.find0 CRLFCRLF (server.response body) =
    Some (71 + length (to_string (length body))).
Proof.
  destruct (to_string_digits (length body)) as (_ & Hall & _).
  rewrite response_unfold.
  rewrite find0_skip_constant by (vm_compute; reflexivity).
  unfold CRLFCRLF at 1. rewrite find0_skip_digits by done.
  rewrite find0_unfold.
  assert (Str.starts_with [CR; LF; CR; LF] (CRLFCRLF ++ body) = true) as ->.
  { apply starts_with_spec. by exists body. }
  cbn [fmap option_fmap option_map]. rewrite Nat.add_0_r. reflexivity.
Qed.

(** The header lines of a response. *)
Lemma response_header_lines ds :
  Forall (λ c, Stoi.isdigit c = true) ds →
  header_lines
    ((str "HTTP/1.1 200 OK" ++ CRLF ++ str "Server: my_server" ++ CRLF
      ++ str "Connection: close" ++ CRLF ++ str "Content-length: ") ++ ds) =
    [str "Server: my_server"; str "Connection: close";
     str "Content-length: " ++ ds].
Proof.
  intros Hall. unfold header_lines.
  rewrite lines_find0.
  rewrite (find0_app_Some _ _ _ 15) by reflexivity.
  cbn [tail]. change (drop (15 + 2) (?a ++ ds)) with
    ((str "Server: my_server" ++ CRLF ++ str "Connection: close" ++ CRLF
      ++ str "Content-length: ") ++ ds).
  rewrite lines_find0.
  rewrite (find0_app_Some _ _ _ 17) by reflexivity.
  change (take 17 (?a ++ ds)) with (str "Server: my_server").
  change (drop (17 + 2) (?a ++ ds)) with
    ((str "Connection: close" ++ CRLF ++ str "Content-length: ") ++ ds).
  rewrite lines_find0.
  rewrite (find0_app_Some _ _ _ 17) by reflexivity.
  change (take 17 (?a ++ ds)) with (str "Connection: close").
  change (drop (17 + 2) (?a ++ ds)) with (str "Content-length: " ++ ds).
  rewrite lines_find0.
  unfold CRLF at 1. rewrite find0_skip_constant by (vm_compute; reflexivity).
  by rewrite find0_digits_None.
Qed.

End response.

(** ** The read loop, the segments and the buffer *)

Section read_loop_more.

Import connection.

(** One [read] from a script that starts with a segment: what is taken,
    what is left, and that the script has become shorter. *)
Lemma read_segments_app d segs rest count :
  0 < count →
  ∃ segs',
    read ((Segment <$> (d :: segs)) ++ rest) count =
      (Z.of_nat (length (take count d)), take count d,
       (Segment <$> segs') ++ rest) ∧
    concat segs' = drop count d ++ concat segs ∧
    length (concat segs') + length segs' <
      length (concat (d :: segs)) + length (d :: segs).
Proof.
  intros Hc. cbn [fmap list_fmap app read concat length].
  rewrite !length_app.
  destruct (drop count d) as [|c r] eqn:E.
  - exists segs. split_and!; [done | done | lia].
  - exists ((c :: r) :: segs). split_and!; [done | done |].
    cbn [concat length]. rewrite length_app.
    apply (f_equal length) in E. rewrite length_drop in E. cbn [length] in *. lia.
Qed.


(** A [read] that fails before the terminator has arrived ends the loop
    in [std::terminate]. *)
Lemma read_loop_fails fuel segs rest p :
  HP.header_finished (RP.m_header_parser p) = false →
  RP.request_finished p = false →
  Str.find0 CRLFCRLF (HP.m_header (RP.m_header_parser p) ++ concat segs) = None →
  length (concat segs) + length segs < fuel →
  read_loop fuel ((Segment <$> segs) ++ Failure :: rest) p = Terminated.
Proof.
  revert segs p. induction fuel as [|fuel IH]; intros segs p Hf Hr HN Hfuel; [lia|].
  destruct segs as [|d segs]; [done|].
  destruct (read_segments_app d segs (Failure :: rest) BUF_SIZE)
    as (segs' & Hread & Hcat & Hlt).
  { unfold BUF_SIZE. lia. }
  cbn [read_loop]. rewrite Hread, check_error_length. cbn [obind].
  rewrite firstn_all.
  assert (HN' : Str.find0 CRLFCRLF
                  ((HP.m_header (RP.m_header_parser p) ++ take BUF_SIZE d)
                     ++ concat segs') = None).
  { rewrite Hcat, <- app_assoc, (app_assoc (take _ _)), take_drop. done. }
  rewrite rp_push_chunk_waiting; [|done|by eapply find0_app_None].
  cbn [obind]. rp_fields. rewrite Hr. apply IH; rp_fields; [done | done | done | lia].
Qed.



End read_loop_more.

(** * Further properties, stated *)

(** X1: however a byte string is cut into chunks, the header parser ends
    with the raw header, the map, the request line and the flag it has
    after the string pushed as one chunk; the body it keeps is a prefix of
    the body of the one chunk. *)
Theorem header_parser_split_invariance (chunks : list bytes) :
  ∃ s1 s2,
    hp_push_chunks chunks HP.init = Returns s1 ∧
    hp_push_chunks [concat chunks] HP.init = Returns s2 ∧
    HP.headers_raw s1 = HP.headers_raw s2 ∧
    HP.headers s1 = HP.headers s2 ∧
    HP.headline s1 = HP.headline s2 ∧
    HP.header_finished s1 = HP.header_finished s2 ∧
    HP.extra_body s1 `prefix_of` HP.extra_body s2.
Proof. apply hp_split_agrees_up_to_body. Qed.





(** X4: in the map of a header parser started from [init], every key is
    free of upper-case ASCII letters, of the delimiter [": "] and of line
    terminators, and every value is free of line terminators. *)
Theorem header_entries_well_formed (chunks : list bytes) (s : HP.t) (k v : bytes) :
  hp_push_chunks chunks HP.init = Returns s →
  HP.headers s !! k = Some v →
  Forall (λ c, ¬ (65 ≤ nat_of_ascii c ≤ 90)) k ∧
  Str.find0 (str ": ") k = None ∧
  Str.find0 CRLF k = None ∧
  Str.find0 CRLF v = None.
Proof.
  intros H Hk. apply hp_push_chunks_init in H as [[_ ->]|(h & body & _ & -> & _)];
    [done|].
  hp_fields. apply header_map_lookup in Hk as [(pre & line & post & kr & E & Hs & <- & _)|[Hk _]];
    [|done].
  assert (Hline : Str.find0 CRLF line = None).
  { pose proof (lines_no_CRLF (take h (concat chunks))) as Hall.
    eapply Forall_forall in Hall; [done|].
    apply elem_of_tail. unfold HeaderBlock.header_lines in E. rewrite E.
    apply elem_of_app. right. by left. }
  apply split_line_inv in Hs as (colon & Hf & -> & ->). split_and!.
  - apply Forall_fmap, Forall_forall. intros c _. apply to_lower_not_upper.
  - rewrite find0_to_lower by apply no_letter_delimiter.
    by apply find0_take.
  - rewrite find0_to_lower by apply no_letter_CRLF.
    by apply find0_take_None.
  - by apply find0_drop_None.
Qed.

Lemma header_entries_well_formed_witness :
  let chunks := [str "GET / HTTP/1.1" ++ CRLF ++ str "Content-TYPE: a: b" ++ CRLFCRLF] in
  let k := str "content-type" in
  let v := str "a: b" in
  ∃ s, hp_push_chunks chunks HP.init = Returns s ∧
    HP.headers s !! k = Some v ∧
    Forall (λ c, ¬ (65 ≤ nat_of_ascii c ≤ 90)) k ∧
    Str.find0 (str ": ") k = None ∧
    Str.find0 CRLF k = None ∧
    Str.find0 CRLF v = None.
Proof.
  intros chunks k v. eexists. split; [vm_compute; reflexivity|].
  split; [reflexivity|].
  eapply (header_entries_well_formed chunks); [vm_compute; reflexivity | reflexivity].
Defined.

(** X5: a header parser started from [init] loses no byte up to the chunk
    that brings the terminator: while it waits, the accumulator is the
    concatenation of the chunks; once finished, the accumulator, the
    terminator and the body, put together, are a prefix of it. *)
Theorem header_parser_conserves_bytes (chunks : list bytes) (s : HP.t) :
  hp_push_chunks chunks HP.init = Returns s →
  if HP.header_finished s
  then (HP.headers_raw s ++ CRLFCRLF ++ HP.extra_body s) `prefix_of` concat chunks
  else HP.headers_raw s = concat chunks.
Proof.
  intros H. apply hp_push_chunks_init in H as [[_ ->]|(h & body & F & -> & Hp)];
    [done|].
  hp_fields. rewrite (find0_split _ _ _ F) at 2. cbn [length CRLFCRLF].
  apply prefix_app, prefix_app. done.
Qed.

Lemma header_parser_conserves_bytes_witness :
  let chunks := [str "GET / HTTP/1.1" ++ [CR; LF; CR]; LF :: str "he"; str "llo"] in
  let s := HP.mk (str "GET / HTTP/1.1") [] ∅ (str "he") true in
  hp_push_chunks chunks HP.init = Returns s ∧
  (HP.headers_raw s ++ CRLFCRLF ++ HP.extra_body s) `prefix_of` concat chunks.
Proof.
  intros chunks s. split; [reflexivity|].
  exact (header_parser_conserves_bytes chunks s eq_refl).
Defined.

(** X6: an empty chunk, which is what the handler pushes after a [read]
    that returned 0, changes no parser that the request parser returned
    for chunks pushed into a fresh one. *)
Theorem empty_chunk_changes_nothing (chunks : list bytes) (p : RP.t) :
  rp_push_chunks chunks RP.init = Returns p →
  RP.push_chunk [] p = Returns p.
Proof.
  intros H. apply rp_push_empty_chunk.
  by apply (rp_push_chunks_inv _ _ _ H hp_inv_init).
Qed.

Lemma empty_chunk_changes_nothing_witness :
  let chunks := [str "GET / HTTP/1.1" ++ [CR; LF; CR]] in
  ∃ p, rp_push_chunks chunks RP.init = Returns p ∧
    RP.request_finished p = false ∧
    RP.push_chunk [] p = Returns p.
Proof.
  intros chunks. eexists. split; [vm_compute; reflexivity|].
  split; [reflexivity|].
  apply (empty_chunk_changes_nothing chunks). vm_compute. reflexivity.
Defined.





(** X9: the response built for a body, given to the server's own header
    parser, is finished by that one chunk; the body kept is the body the
    response was built for, whatever bytes it holds; the map holds the
    three headers, the length as [std::to_string] wrote it; and
    [std::stoi] reads that length back when it fits an [int]. *)
Theorem response_parses_back (body : bytes) :
  ∃ s, HP.push_chunk (server.response body) HP.init = Returns s ∧
    HP.header_finished s = true ∧
    HP.extra_body s = body ∧
    HP.headers s !! str "server" = Some (str "my_server") ∧
    HP.headers s !! str "connection" = Some (str "close") ∧
    HP.headers s !! str "content-length"
      = Some (ToString.to_string (length body)) ∧
    Stoi.stoi (ToString.to_string (length body)) =
      if decide (Z.of_nat (length body) ≤ Stoi.INT_MAX)%Z
      then Returns (Z.of_nat (length body)) else Throws out_of_range.
Proof.
  destruct (to_string_digits (length body)) as (Hne & Hall & Hval).
  pose proof (response_terminator body) as F.
  eexists. split.
  { apply (hp_push_chunk_completes _ HP.init _ eq_refl F). }
  hp_fields.
  change (HP.m_header HP.init ++ server.response body) with (server.response body).
  change (HP.m_header_keys HP.init) with (∅ : gmap bytes bytes).
  assert (Htake : take (71 + length (ToString.to_string (length body)))
                    (server.response body) =
                  (str "HTTP/1.1 200 OK" ++ CRLF ++ str "Server: my_server" ++ CRLF
                   ++ str "Connection: close" ++ CRLF ++ str "Content-length: ")
                  ++ ToString.to_string (length body)).
  { rewrite response_unfold, app_assoc. apply take_app_length'.
    rewrite length_app. reflexivity. }
  rewrite Htake, response_header_lines by done.
  assert (Hsplit : HeaderBlock.split_line
                     (str "Content-length: " ++ ToString.to_string (length body)) =
                   Some (str "Content-length", ToString.to_string (length body))).
  { unfold HeaderBlock.split_line.
    by rewrite (find0_app_Some _ _ _ 14) by reflexivity. }
  split_and!.
  - done.
  - rewrite <- (drop_drop _ 4), response_unfold, app_assoc.
    rewrite drop_app_length'; [done|]. rewrite length_app. reflexivity.
  - unfold HeaderBlock.header_map. cbn [foldl].
    rewrite add_line_lookup, Hsplit.
    destruct (decide _) as [e|_]; [by vm_compute in e|]. reflexivity.
  - unfold HeaderBlock.header_map. cbn [foldl].
    rewrite add_line_lookup, Hsplit.
    destruct (decide _) as [e|_]; [by vm_compute in e|]. reflexivity.
  - unfold HeaderBlock.header_map. cbn [foldl].
    rewrite add_line_lookup, Hsplit. by rewrite decide_True by reflexivity.
  - rewrite stoi_digits, Hval by done. done.
Qed.


(** X11: when a [read] fails before the segments read so far hold the
    terminator, the handler ends in [std::terminate] and writes nothing;
    and when the one [write] fails it ends in [std::terminate] as well. *)
Theorem handler_terminates_on_failure :
  (∀ (segs : list bytes) (rest : connection.conn) (fuel : nat) (written : Z),
      Str.find0 CRLFCRLF (concat segs) = None →
      length (concat segs) + length segs < fuel →
      server.handle_connection fuel
        ((connection.Segment <$> segs) ++ connection.Failure :: rest) written
        = Terminated) ∧
  (∀ (fuel : nat) (c : connection.conn) (p : RP.t),
      connection.read_loop fuel c RP.init = Returns p →
      server.handle_connection fuel c (-1) = Terminated).
Proof.
  split.
  - intros segs rest fuel written HN Hfuel. unfold server.handle_connection.
    by rewrite read_loop_fails.
  - intros fuel c p H. unfold server.handle_connection. by rewrite H.
Qed.

Lemma handler_terminates_on_failure_witness :
  let segs := [str "GET / HTTP/1.1" ++ CRLF; str "Host: x" ++ CRLF] in
  Str.find0 CRLFCRLF (concat segs) = None ∧
  length (concat segs) + length segs < 40 ∧
  server.handle_connection 40
    ((connection.Segment <$> segs) ++ connection.Failure :: []) 76 = Terminated.
Proof.
  intros segs. split; [reflexivity|]. split; [vm_compute; lia|].
  apply (proj1 handler_terminates_on_failure segs [] 40 76%Z);
    [reflexivity | vm_compute; lia].
Defined.

(** X12: the request line is not taken for a header: when the bytes
    before the terminator hold no line terminator, the map stays empty,
    also when the request line holds [": "]. *)
Theorem request_line_is_no_header (chunks : list bytes) (s : HP.t) :
  hp_push_chunks chunks HP.init = Returns s →
  Str.find0 CRLF (HP.headers_raw s) = None →
  HP.headers s = ∅.
Proof.
  intros H HN. apply hp_push_chunks_init in H as [[_ ->]|(h & body & _ & -> & _)];
    [done|].
  hp_fields. unfold HeaderBlock.header_lines. rewrite lines_find0, HN. done.
Qed.

Lemma request_line_is_no_header_witness :
  let chunks := [str "GET /a: b HTTP/1.1" ++ CRLFCRLF ++ str "k: v"] in
  let s := HP.mk (str "GET /a: b HTTP/1.1") [] ∅ (str "k: v") true in
  hp_push_chunks chunks HP.init = Returns s ∧
  Str.find0 (str ": ") (HP.headers_raw s) = Some 6 ∧
  Str.find0 CRLF (HP.headers_raw s) = None ∧
  HP.headers s = ∅.
Proof.
  intros chunks s. split; [reflexivity|]. split; [reflexivity|].
  split; [reflexivity|].
  apply (request_line_is_no_header chunks s); reflexivity.
Defined.

(** X13: after any chunks pushed into a fresh header parser,
    [header_finished()] is true exactly when the bytes pushed so far hold
    the terminator, also when the terminator is cut by chunk boundaries. *)
Theorem header_finished_iff_terminator (chunks : list bytes) :
  ∃ s, hp_push_chunks chunks HP.init = Returns s ∧
    (HP.header_finished s = true ↔
     is_Some (Str.find0 CRLFCRLF (concat chunks))).
Proof.
  destruct (hp_push_chunks_returns chunks HP.init) as [s H].
  exists s. split; [done|].
  apply hp_push_chunks_init in H as [[F ->]|(h & body & F & -> & _)];
    rewrite F; hp_fields.
  - split; [done|]. by intros [? ?].
  - split; [by eexists|done].
Qed.



(** X15: what the push that brings the terminator does, by the
    [content-length] entry of the map it has built.  Without the entry, or
    with a value [std::stoi] rejects as no number, it returns the finished
    parser with an empty body; with a value [std::stoi] converts its
    behaviour is undefined; with a value out of the range of [int] the
    exception [std::out_of_range] leaves it. *)
Theorem push_chunk_by_content_length (chunk : bytes) (h : nat) :
  Str.find0 CRLFCRLF chunk = Some h →
  let keys := HeaderBlock.header_map ∅ (HeaderBlock.header_lines (take h chunk)) in
  let finished := RP.mk (HP.mk (take h chunk) [] keys [] true) 0 true in
  (keys !! str "content-length" = None →
   RP.push_chunk chunk RP.init = Returns finished) ∧
  (∀ v, keys !! str "content-length" = Some v →
        (Stoi.stoi v = Throws invalid_argument →
         RP.push_chunk chunk RP.init = Returns finished) ∧
        (∀ n, Stoi.stoi v = Returns n →
              RP.push_chunk chunk RP.init = Undefined) ∧
        (Stoi.stoi v = Throws out_of_range →
         RP.push_chunk chunk RP.init = Throws out_of_range)).
Proof.
  intros F keys finished.
  pose proof (rp_push_chunk_completes chunk RP.init h eq_refl F) as H.
  cbv zeta in H.
  change (HP.m_header (RP.m_header_parser RP.init) ++ chunk) with chunk in H.
  change (HP.m_header_keys (RP.m_header_parser RP.init))
    with (∅ : gmap bytes bytes) in H.
  change (HP.m_header_line (RP.m_header_parser RP.init)) with (@nil ascii) in H.
  rewrite H. unfold RP._extract_content_length.
  change (RP.headers _) with keys. split.
  - by intros ->.
  - intros v ->. split_and!; [by intros -> | by intros n -> | by intros ->].
Qed.

Lemma push_chunk_by_content_length_witness :
  let chunk := str "POST / HTTP/1.1" ++ CRLF ++ str "Content-Length: 99999999999"
               ++ CRLFCRLF ++ str "x" in
  Str.find0 CRLFCRLF chunk = Some 44 ∧
  Stoi.stoi (str "99999999999") = Throws out_of_range ∧
  RP.push_chunk chunk RP.init = Throws out_of_range.
Proof.
  intros chunk. split; [reflexivity|]. split; [reflexivity|].
  exact (proj2 (proj2 (proj2 (push_chunk_by_content_length chunk 44 eq_refl)
                         (str "99999999999") eq_refl)) eq_refl).
Defined.
